(** * forkdiff: patch index, coverage tracking and glob expansion

    A shallow embedding of [main.go] of forkdiff.  The program diffs two
    git trees, indexes the file patches by path, and executes a page
    template whose functions ([renderPatch], [remainingPatches],
    [expandGlob], ...) read that index and mutate the set [remaining] of
    patches no section has rendered yet.

    Go maps are [gmap]/[gset]; the captured variable [remaining] is
    threaded explicitly through the template functions; Go's
    [(value, error)] returns are a [result]; what the program imports
    (go-git's encoder, terminal-to-html, gomarkdown, [filepath.Match]) is
    a section variable of the development. *)

From Stdlib Require Import ZArith List Ascii String.
From stdpp Require Import base option strings pretty list gmap sorting.

#[local] Set Warnings "-clear-no-such-hyp".
#[local] Set Default Proof Using "Type".

(** ** Go values used by the program *)

(** An operand of a [fmt] formatting call; [AnyError format args] is an
    [error] value passed as operand. *)
#[warnings="-register-all"]
Inductive any : Type :=
| AnyInt (i : Z)
| AnyString (s : string)
| AnyError (format : string) (args : list any).

(** A Go [error] made by [fmt.Errorf format args...] (or [errors.New
    format] when [args] is empty).  The message is [fmt]'s rendering of
    [format] on [args]; it is kept unrendered. *)
Record error : Type := Errorf { format : string; args : list any }.

Definition any_of_error (e : error) : any := AnyError (format e) (args e).

(** A Go multiple return [(v, err)]: [Ok v] is [(v, nil)], [Err e] is
    [(zero, e)]. *)
Inductive result (A : Type) : Type :=
| Ok (v : A)
| Err (e : error).
Arguments Ok {A} v.
Arguments Err {A} e.

(** ** go-git: [plumbing/format/diff] and tree entries *)

Module diff.

(** [diff.File]: one side of a file patch. *)
Record File : Type := mkFile { Hash : string; Mode : Z; Path : string }.

Inductive Operation : Type := Equal | Add | Delete.

(** [diff.Chunk]. *)
Record Chunk : Type := mkChunk { Content : string; Type_ : Operation }.

(** [diff.FilePatch].  [Files] returns [(from, to)]; either may be the
    nil interface value, here [None]. *)
Record FilePatch : Type := mkFilePatch {
  IsBinary : bool;
  Files : option File * option File;
  Chunks : list Chunk
}.

(** The [diff.Patch] interface. *)
Class Patch (A : Type) : Type := {
  FilePatches : A -> list FilePatch;
  Message : A -> string
}.

(** The settings [renderPatch] gives the unified encoder. *)
Record UnifiedEncoder : Type := NewUnifiedEncoder {
  contextLines : Z;
  srcPrefix : string;
  dstPrefix : string;
  color : bool
}.

Definition SetSrcPrefix (p : string) (e : UnifiedEncoder) : UnifiedEncoder :=
  {| contextLines := contextLines e; srcPrefix := p;
     dstPrefix := dstPrefix e; color := color e |}.
Definition SetDstPrefix (p : string) (e : UnifiedEncoder) : UnifiedEncoder :=
  {| contextLines := contextLines e; srcPrefix := srcPrefix e;
     dstPrefix := p; color := color e |}.
Definition SetColor (c : bool) (e : UnifiedEncoder) : UnifiedEncoder :=
  {| contextLines := contextLines e; srcPrefix := srcPrefix e;
     dstPrefix := dstPrefix e; color := c |}.

End diff.

(** [object.TreeEntry]: an entry of a git tree.  A directory is an entry
    whose [Hash] names another tree object; its content is not part of
    the listing. *)
Record TreeEntry : Type := mkTreeEntry {
  Name : string;
  EntryMode : Z;
  EntryHash : string
}.

(** ** Types of [main.go] *)

(** [type FilePatch struct { filePatch diff.FilePatch }] *)
Record FilePatch : Type := mkFilePatch { filePatch : diff.FilePatch }.

(** [func (p FilePatch) FilePatches()] and [func (p FilePatch) Message()];
    [var _ diff.Patch = FilePatch{}]. *)
Global Instance FilePatch_Patch : diff.Patch FilePatch := {|
  diff.FilePatches := fun p => [filePatch p];
  diff.Message := fun _ => ""
|}.

(** [type ForkDefinition struct]: a node of the section tree. *)
#[warnings="-register-all"]
Inductive ForkDefinition : Type := mkForkDefinition {
  Title : string;
  Description : string;
  Globs : list string;
  Sub : list ForkDefinition
}.

(** [type Page struct]. *)
Record Page : Type := mkPage { PageTitle : string; Def : ForkDefinition }.

(** [type NestedForkDefinition struct]. *)
Record NestedForkDefinition : Type := mkNested {
  NDef : ForkDefinition;
  Level : Z
}.

(** Go's [int] arithmetic on a 64-bit platform: [z] wrapped into the
    range from [-2^63] to [2^63 - 1]. *)
Definition wrapInt (z : Z) : Z := (z + 2 ^ 63) mod 2 ^ 64 - 2 ^ 63.

(** [func (nd *NestedForkDefinition) NextLevel() int] *)
Definition NextLevel (nd : NestedForkDefinition) : Z := wrapInt (Level nd + 1).

(** [func (nd *NestedForkDefinition) Title() string], that is
    [fmt.Sprintf("<h%d>%s</%d>", nd.Level, nd.Def.Title, nd.Level)]:
    [%d] writes an [int] in decimal, [%s] a string as it is. *)
Definition NestedTitle (nd : NestedForkDefinition) : string :=
  "<h" +:+ pretty (Level nd) +:+ ">" +:+ Title (NDef nd)
    +:+ "</" +:+ pretty (Level nd) +:+ ">".

(** ** The process: what [main] leaves behind *)

(** One [fmt.Fprintf] call, unrendered. *)
Record print : Type := Fprintf { pformat : string; pargs : list any }.

(** [stderr] holds the prints to standard error, [written] the pieces
    written to the output file, both oldest first. *)
Record Proc : Type := mkProc { stderr : list print; written : list string }.

Definition proc0 : Proc := {| stderr := []; written := [] |}.

(** How a computation of [main] ends: with a value, with [os.Exit code],
    or with a run-time panic. *)
Inductive outcome (A : Type) : Type :=
| Val (a : A)
| Exit (code : Z)
| Panic.
Arguments Val {A} a.
Arguments Exit {A} code.
Arguments Panic {A}.

Definition M (A : Type) : Type := Proc -> outcome A * Proc.

Definition ret {A} (a : A) : M A := fun p => (Val a, p).

Definition bind {A B} (m : M A) (f : A -> M B) : M B :=
  fun p =>
    match m p with
    | (Val a, p') => f a p'
    | (Exit c, p') => (Exit c, p')
    | (Panic, p') => (Panic, p')
    end.

Notation "x <- m ;; k" := (bind m (fun x => k))
  (at level 100, m at next level, right associativity).

Definition panic {A} : M A := fun p => (Panic, p).

Definition eprintf (format : string) (args : list any) : M unit :=
  fun p => (Val tt, {| stderr := stderr p ++ [Fprintf format args];
                       written := written p |}).

Definition os_Exit {A} (code : Z) : M A := fun p => (Exit code, p).

(** The closure [must] of [main]: on a non-nil error it prints [msg]
    (with its operands) and the error to standard error and exits with
    status 1. *)
Definition must (err : option error) (msg : string) (margs : list any) : M unit :=
  match err with
  | None => ret tt
  | Some e =>
      _ <- eprintf msg margs ;;
      _ <- eprintf (String "010" "error: %v") [any_of_error e] ;;
      os_Exit 1
  end.

(** ** Building the patch index ([main], the loop over [FilePatches]) *)

(** The key a file patch is stored under: [to.Path()] when [to != nil],
    else [from.Path()].  With both sides nil, [from.Path()] is a call on
    a nil interface and panics: [None]. *)
Definition patchKey (fp : diff.FilePatch) : option string :=
  let '(from, to) := diff.Files fp in
  match to with
  | Some t => Some (diff.Path t)
  | None =>
      match from with
      | Some f => Some (diff.Path f)
      | None => None
      end
  end.

(** [for _, fp := range forkPatch.FilePatches() { ... patchByName[..] = fp }] *)
Fixpoint indexPatches (fps : list diff.FilePatch)
    (patchByName : gmap string diff.FilePatch) : M (gmap string diff.FilePatch) :=
  match fps with
  | [] => ret patchByName
  | fp :: fps' =>
      match patchKey fp with
      | Some k => indexPatches fps' (<[k := fp]> patchByName)
      | None => panic
      end
  end.

(** [for k := range patchByName { remaining[k] = struct{}{} }], over the
    keys in the order [keys] the map iteration happens to produce. *)
Definition seedRemaining (keys : list string) : gset string :=
  foldl (fun remaining k => {[k]} ∪ remaining) ∅ keys.

(** One order in which [range] may visit the keys of a set.  Go leaves
    the order unspecified; the theorems on the loops below hold for
    every permutation of it. *)
Definition rangeKeys (s : gset string) : list string := elements s.

(** [sort.Strings]: sorts in increasing order of Go's string comparison,
    the lexicographic order on bytes, which is [String.le]. *)
Definition sort_Strings (l : list string) : list string :=
  merge_sort String.le l.

(** ** The template functions ([templ.Funcs(template.FuncMap{...})]) *)

Section Funcs.

(** What the closures capture from [main]. *)
Variable patchByName : gmap string diff.FilePatch.
Variable targetTree_Entries : list TreeEntry.
Variables baseRefStr targetRefStr : string.

(** What they call in the imported packages: the unified encoder's
    [Encode] (the bytes it wrote to the buffer, or its error),
    [t2html.Render], [markdown.ToHTML] and [filepath.Match] (its two
    results, [matched] and [err]). *)
Variable Encode : diff.UnifiedEncoder -> list diff.FilePatch -> string -> result string.
Variable t2html_Render : string -> string.
Variable markdown_ToHTML : string -> string.
Variable filepath_Match : string -> string -> bool * option error.

Definition enc_Encode {A} `{diff.Patch A} (enc : diff.UnifiedEncoder) (p : A)
    : result string :=
  Encode enc (diff.FilePatches p) (diff.Message p).

(** ["renderMarkdown"] *)
Definition renderMarkdown (md : string) : string := markdown_ToHTML md.

(** The encoder [renderPatch] sets up: three lines of context, the
    two reference names as prefixes, colours on. *)
Definition newEncoder : diff.UnifiedEncoder :=
  let enc := diff.NewUnifiedEncoder 3 "" "" false in
  let enc := diff.SetSrcPrefix baseRefStr enc in
  let enc := diff.SetDstPrefix targetRefStr enc in
  diff.SetColor true enc.

(** ["renderPatch"]: the result and the value of [remaining] after the
    call. *)
Definition renderPatch (path : string) (remaining : gset string)
    : result string * gset string :=
  match patchByName !! path with
  | None =>
      (Err (Errorf "failed to find file patch %s" [AnyString path]), remaining)
  | Some p =>
      match enc_Encode newEncoder {| filePatch := p |} with
      | Err _ => (Err (Errorf "" []), remaining)
      | Ok out => (Ok (t2html_Render out), remaining ∖ {[path]})
      end
  end.

(** ["remainingPatches"], the [range] visiting the keys in the order
    [order]. *)
Definition remainingPatches_in (order : list string) : list string :=
  sort_Strings (foldl (fun out k => out ++ [k]) [] order).

Definition remainingPatches (remaining : gset string) : list string :=
  remainingPatches_in (rangeKeys remaining).

(** ["nestForkDefinition"] *)
Definition nestForkDefinition (def : ForkDefinition) (level : Z)
    : NestedForkDefinition :=
  {| NDef := def; Level := level |}.

(** ["expandGlob"]: the loop from entry [i] on, with [out] the matches
    so far. *)
Fixpoint expandGlob_from (globPattern : string) (entries : list TreeEntry)
    (i : Z) (out : list string) : result (list string) :=
  match entries with
  | [] => Ok out
  | entry :: entries' =>
      match filepath_Match globPattern (Name entry) with
      | (_, Some _) =>
          Err (Errorf "failed to glob match entry %d (%q) against pattern %q"
                 [AnyInt i; AnyString (Name entry); AnyString globPattern])
      | (true, None) =>
          expandGlob_from globPattern entries' (i + 1) (out ++ [Name entry])
      | (false, None) =>
          expandGlob_from globPattern entries' (i + 1) out
      end
  end.

Definition expandGlob (globPattern : string) : result (list string) :=
  expandGlob_from globPattern targetTree_Entries 0 [].

(** ** Executing a template

    A template applied to its data is a program that writes text and
    calls the functions above, each call continuing with the value
    returned.  [text/template] stops the execution at the first call
    that returns a non-nil error and returns that error; what was
    written before stays written. *)
Inductive Tmpl : Type :=
| TEnd
| TText (s : string) (k : Tmpl)
| TRenderMarkdown (md : string) (k : string -> Tmpl)
| TRenderPatch (path : string) (k : string -> Tmpl)
| TRemainingPatches (k : list string -> Tmpl)
| TNestForkDefinition (def : ForkDefinition) (level : Z)
    (k : NestedForkDefinition -> Tmpl)
| TExpandGlob (globPattern : string) (k : list string -> Tmpl).

(** The state of an execution: [remaining] and the text written. *)
Record Exec : Type := mkExec { remaining : gset string; output : list string }.

Fixpoint Execute (t : Tmpl) (st : Exec) : option error * Exec :=
  match t with
  | TEnd => (None, st)
  | TText s k =>
      Execute k {| remaining := remaining st; output := output st ++ [s] |}
  | TRenderMarkdown md k => Execute (k (renderMarkdown md)) st
  | TRenderPatch path k =>
      match renderPatch path (remaining st) with
      | (Ok html, remaining') =>
          Execute (k html) {| remaining := remaining'; output := output st |}
      | (Err e, remaining') =>
          (Some e, {| remaining := remaining'; output := output st |})
      end
  | TRemainingPatches k => Execute (k (remainingPatches (remaining st))) st
  | TNestForkDefinition def level k =>
      Execute (k (nestForkDefinition def level)) st
  | TExpandGlob globPattern k =>
      match expandGlob globPattern with
      | Ok out => Execute (k out) st
      | Err e => (Some e, st)
      end
  end.

(** The paths of the calls of [renderPatch] that returned without
    error during [Execute t st], in call order. *)
Fixpoint rendered (t : Tmpl) (st : Exec) : list string :=
  match t with
  | TEnd => []
  | TText s k =>
      rendered k {| remaining := remaining st; output := output st ++ [s] |}
  | TRenderMarkdown md k => rendered (k (renderMarkdown md)) st
  | TRenderPatch path k =>
      match renderPatch path (remaining st) with
      | (Ok html, remaining') =>
          path :: rendered (k html)
                    {| remaining := remaining'; output := output st |}
      | (Err e, remaining') => []
      end
  | TRemainingPatches k => rendered (k (remainingPatches (remaining st))) st
  | TNestForkDefinition def level k =>
      rendered (k (nestForkDefinition def level)) st
  | TExpandGlob globPattern k =>
      match expandGlob globPattern with
      | Ok out => rendered (k out) st
      | Err e => []
      end
  end.

End Funcs.

(** The error of [renderPatch] on a path that has no patch. *)
Definition notFound (path : string) : error :=
  Errorf "failed to find file patch %s" [AnyString path].

(** The error of [expandGlob] at entry [i], named [name]. *)
Definition globError (i : Z) (name globPattern : string) : error :=
  Errorf "failed to glob match entry %d (%q) against pattern %q"
    [AnyInt i; AnyString name; AnyString globPattern].

(** ** [main], from the computed patch to the end *)

Section Main.

Variable Encode : diff.UnifiedEncoder -> list diff.FilePatch -> string -> result string.
Variable t2html_Render : string -> string.
Variable markdown_ToHTML : string -> string.
Variable filepath_Match : string -> string -> bool * option error.

(** The parsed page template, as the program it is on given data. *)
Variable page : Page -> Tmpl.

(** [templ.ExecuteTemplate(f, "main", pageDefinition)] with the
    functions closed over [patchByName] and [remaining]. *)
Definition ExecuteTemplate (patchByName : gmap string diff.FilePatch)
    (targetTree_Entries : list TreeEntry) (baseRefStr targetRefStr : string)
    (remaining0 : gset string) (data : Page) : M (option error) :=
  fun p =>
    let '(err, st) :=
      Execute patchByName targetTree_Entries baseRefStr targetRefStr
        Encode t2html_Render markdown_ToHTML filepath_Match
        (page data) {| remaining := remaining0; output := written p |} in
    (Val err, {| stderr := stderr p; written := output st |}).

(** [main] after [forkPatch] has been computed and the output file
    opened. *)
Definition main_tail (baseRefStr targetRefStr : string)
    (targetTree_Entries : list TreeEntry)
    (forkPatch_FilePatches : list diff.FilePatch)
    (pageDefinition : Page) : M unit :=
  patchByName <- indexPatches forkPatch_FilePatches ∅ ;;
  let remaining0 := seedRemaining (rangeKeys (dom patchByName)) in
  err <- ExecuteTemplate patchByName targetTree_Entries baseRefStr
           targetRefStr remaining0 pageDefinition ;;
  must err "failed to build page" [].

End Main.

(** The patches of [fps] stored under key [k], in iteration order. *)
Definition patchesAt (k : string) (fps : list diff.FilePatch) : list diff.FilePatch :=
  filter (fun fp => patchKey fp = Some k) fps.

(** ** [path/filepath.Match]

    Go's matcher (the Unix one: separator [/], backslash escapes), on
    strings as byte lists, with [unicode/utf8]'s decoding of a rune.
    The loops that Go runs until the pattern is consumed take the
    pattern's length as fuel; every round consumes at least a byte. *)
Module utf8.

Definition RuneError : Z := 65533%Z.

Definition byteOf (c : ascii) : Z := Z.of_N (N_of_ascii c).

(** A continuation byte, from [0x80] to [0xBF]. *)
Definition isCont (b : Z) : bool := (128 <=? b)%Z && (b <=? 191)%Z.

(** The size of the sequence that a leading byte from [0xC2] to [0xF4]
    announces, and the range accepted for its second byte (the tables
    [first] and [acceptRanges]). *)
Definition seqSize (s0 : Z) : Z :=
  (if s0 <? 224 then 2 else if s0 <? 240 then 3 else 4)%Z.

Definition acceptRange (s0 : Z) : Z * Z :=
  (if s0 =? 224 then (160, 191)
   else if s0 =? 237 then (128, 159)
   else if s0 =? 240 then (144, 191)
   else if s0 =? 244 then (128, 143)
   else (128, 191))%Z.

(** [utf8.DecodeRuneInString]: the rune and its width in bytes;
    [(RuneError, 0)] on the empty string and [(RuneError, 1)] on an
    invalid encoding. *)
Definition DecodeRuneInString (s : list ascii) : Z * nat :=
  match s with
  | [] => (RuneError, 0%nat)
  | c0 :: s1 =>
      let b0 := byteOf c0 in
      if (b0 <? 128)%Z then (b0, 1%nat)
      else if (b0 <? 194)%Z || (244 <? b0)%Z then (RuneError, 1%nat)
      else
        let sz := seqSize b0 in
        let '(lo, hi) := acceptRange b0 in
        if (Z.of_nat (length s) <? sz)%Z then (RuneError, 1%nat)
        else
          match s1 with
          | [] => (RuneError, 1%nat)
          | c1 :: s2 =>
              let b1 := byteOf c1 in
              if (b1 <? lo)%Z || (hi <? b1)%Z then (RuneError, 1%nat)
              else if (sz <=? 2)%Z then
                (Z.lor (Z.shiftl (Z.land b0 31) 6) (Z.land b1 63), 2%nat)%Z
              else
                match s2 with
                | [] => (RuneError, 1%nat)
                | c2 :: s3 =>
                    let b2 := byteOf c2 in
                    if negb (isCont b2) then (RuneError, 1%nat)
                    else if (sz <=? 3)%Z then
                      (Z.lor (Z.shiftl (Z.land b0 15) 12)
                         (Z.lor (Z.shiftl (Z.land b1 63) 6) (Z.land b2 63)),
                       3%nat)%Z
                    else
                      match s3 with
                      | [] => (RuneError, 1%nat)
                      | c3 :: _ =>
                          let b3 := byteOf c3 in
                          if negb (isCont b3) then (RuneError, 1%nat)
                          else
                            (Z.lor (Z.shiftl (Z.land b0 7) 18)
                               (Z.lor (Z.shiftl (Z.land b1 63) 12)
                                  (Z.lor (Z.shiftl (Z.land b2 63) 6)
                                     (Z.land b3 63))),
                             4%nat)%Z
                      end
                end
          end
  end.

End utf8.

Module filepath.

Definition ErrBadPattern : error := Errorf "syntax error in pattern" [].

Definition Separator : ascii := "/"%char.

Definition is_nil {A} (l : list A) : bool :=
  match l with [] => true | _ => false end.

(** [scanChunk], the loop over the leading stars. *)
Fixpoint scanStars (pattern : list ascii) (star : bool) : bool * list ascii :=
  match pattern with
  | c :: pattern' =>
      if Ascii.eqb c "*" then scanStars pattern' true else (star, pattern)
  | [] => (star, pattern)
  end.

(** [scanChunk], the loop [Scan]: the chunk and the rest. *)
Fixpoint scanBody (pattern : list ascii) (inrange : bool)
    : list ascii * list ascii :=
  match pattern with
  | [] => ([], [])
  | c :: pattern' =>
      if Ascii.eqb c "\" then
        match pattern' with
        | c' :: pattern'' =>
            let '(chunk, rest) := scanBody pattern'' inrange in
            (c :: c' :: chunk, rest)
        | [] => ([c], [])
        end
      else if Ascii.eqb c "[" then
        let '(chunk, rest) := scanBody pattern' true in (c :: chunk, rest)
      else if Ascii.eqb c "]" then
        let '(chunk, rest) := scanBody pattern' false in (c :: chunk, rest)
      else if Ascii.eqb c "*" && negb inrange then ([], pattern)
      else
        let '(chunk, rest) := scanBody pattern' inrange in (c :: chunk, rest)
  end.

Definition scanChunk (pattern : list ascii) : bool * list ascii * list ascii :=
  let '(star, pattern') := scanStars pattern false in
  let '(chunk, rest) := scanBody pattern' false in
  (star, chunk, rest).

(** [getEsc]: the rune and the chunk after it; [None] is
    [ErrBadPattern]. *)
Definition getEsc (chunk : list ascii) : option (Z * list ascii) :=
  match chunk with
  | [] => None
  | c :: chunk' =>
      if Ascii.eqb c "-" || Ascii.eqb c "]" then None
      else
        let chunk1 := if Ascii.eqb c "\" then chunk' else chunk in
        if is_nil chunk1 then None
        else
          let '(r, n) := utf8.DecodeRuneInString chunk1 in
          if (r =? utf8.RuneError)%Z && (n =? 1)%nat then None
          else
            let nchunk := drop n chunk1 in
            if is_nil nchunk then None else Some (r, nchunk)
  end.

Definition inRange (lo r hi : Z) : bool := (lo <=? r)%Z && (r <=? hi)%Z.

(** [matchChunk], the loop over the ranges of a character class:
    whether [r] matched, and the chunk after the closing bracket. *)
Fixpoint classLoop (fuel : nat) (chunk : list ascii) (r : Z)
    (matched : bool) (nrange : nat) : option (bool * list ascii) :=
  match fuel with
  | O => None
  | S fuel' =>
      let range :=
        match getEsc chunk with
        | None => None
        | Some (lo, chunk1) =>
            match chunk1 with
            | d :: chunk2 =>
                if Ascii.eqb d "-" then
                  match getEsc chunk2 with
                  | None => None
                  | Some (hi, chunk3) =>
                      classLoop fuel' chunk3 r (matched || inRange lo r hi)
                        (S nrange)
                  end
                else
                  classLoop fuel' chunk1 r (matched || inRange lo r lo)
                    (S nrange)
            | [] => None
            end
        end in
      match chunk with
      | c :: chunk' =>
          if Ascii.eqb c "]" && (0 <? nrange)%nat then Some (matched, chunk')
          else range
      | [] => range
      end
  end.

(** The three returns of [matchChunk]: [(rest, true, nil)],
    [("", false, nil)] and [("", false, ErrBadPattern)]. *)
Inductive chunkResult : Type :=
| ChunkOk (rest : list ascii)
| ChunkFail
| ChunkErr.

Fixpoint matchChunk_loop (fuel : nat) (chunk s : list ascii) (failed : bool)
    : chunkResult :=
  match fuel with
  | O => if failed then ChunkFail else ChunkOk s
  | S fuel' =>
      match chunk with
      | [] => if failed then ChunkFail else ChunkOk s
      | c :: chunk' =>
          let failed := failed || is_nil s in
          let literal (d : ascii) (chunk1 : list ascii) :=
            if failed then matchChunk_loop fuel' chunk1 s failed
            else matchChunk_loop fuel' chunk1 (tail s)
                   (negb (Ascii.eqb d (hd zero s))) in
          if Ascii.eqb c "[" then
            let r := if failed then 0%Z else fst (utf8.DecodeRuneInString s) in
            let s := if failed then s
                     else drop (snd (utf8.DecodeRuneInString s)) s in
            let '(negated, chunk1) :=
              match chunk' with
              | d :: chunk'' =>
                  if Ascii.eqb d "^" then (true, chunk'') else (false, chunk')
              | [] => (false, chunk')
              end in
            match classLoop (S (length chunk1)) chunk1 r false 0 with
            | None => ChunkErr
            | Some (matched, chunk2) =>
                matchChunk_loop fuel' chunk2 s
                  (failed || Bool.eqb matched negated)
            end
          else if Ascii.eqb c "?" then
            if failed then matchChunk_loop fuel' chunk' s failed
            else matchChunk_loop fuel' chunk'
                   (drop (snd (utf8.DecodeRuneInString s)) s)
                   (Ascii.eqb (hd zero s) Separator)
          else if Ascii.eqb c "\" then
            match chunk' with
            | [] => ChunkErr
            | d :: chunk'' => literal d chunk''
            end
          else literal c chunk'
      end
  end.

Definition matchChunk (chunk s : list ascii) : chunkResult :=
  matchChunk_loop (S (length chunk)) chunk s false.

(** [Match], the loop that skips [i+1] bytes of the name after a star;
    [lastChunk] is [len(pattern) == 0]. *)
Inductive starResult : Type :=
| StarFound (rest : list ascii)
| StarNone
| StarErr.

Fixpoint starLoop (chunk : list ascii) (lastChunk : bool) (name : list ascii)
    : starResult :=
  match name with
  | [] => StarNone
  | c :: name' =>
      if Ascii.eqb c Separator then StarNone
      else
        match matchChunk chunk name' with
        | ChunkOk t =>
            if lastChunk && negb (is_nil t) then starLoop chunk lastChunk name'
            else StarFound t
        | ChunkErr => StarErr
        | ChunkFail => starLoop chunk lastChunk name'
        end
  end.

(** [Match].  When a chunk fails to match, [(false, nil)] is returned
    and the rest of the pattern is not looked at. *)
Fixpoint Match_loop (fuel : nat) (pattern name : list ascii)
    : bool * option error :=
  match fuel with
  | O => (is_nil name, None)
  | S fuel' =>
      match pattern with
      | [] => (is_nil name, None)
      | _ =>
          let '(star, chunk, rest) := scanChunk pattern in
          let noMatch : bool * option error := (false, None) in
          let retry :=
            if star then
              match starLoop chunk (is_nil rest) name with
              | StarFound t => Match_loop fuel' rest t
              | StarErr => (false, Some ErrBadPattern)
              | StarNone => noMatch
              end
            else noMatch in
          if star && is_nil chunk then
            (negb (existsb (Ascii.eqb Separator) name), None)
          else
            match matchChunk chunk name with
            | ChunkOk t =>
                if is_nil t || negb (is_nil rest) then Match_loop fuel' rest t
                else retry
            | ChunkErr => (false, Some ErrBadPattern)
            | ChunkFail => retry
            end
      end
  end.

Definition Match (pattern name : string) : bool * option error :=
  Match_loop (S (String.length pattern))
    (list_ascii_of_string pattern) (list_ascii_of_string name).

End filepath.

(** ** Sample inputs

    A target tree with the entries [a.go], [b.go] and [c.md]; a patch
    with [a.go] on both sides, one with [c.md] on the [to] side only,
    one with [old.txt] on the [from] side only, one from [x.go] to
    [a.go], and stand-ins for the imported encoder and renderers. *)
Module Sample.

Definition file (path : string) : diff.File :=
  {| diff.Hash := "0000"; diff.Mode := 33188; diff.Path := path |}.

Definition chunk : diff.Chunk :=
  {| diff.Content := "line"; diff.Type_ := diff.Add |}.

Definition fp_a : diff.FilePatch :=
  {| diff.IsBinary := false;
     diff.Files := (Some (file "a.go"), Some (file "a.go"));
     diff.Chunks := [chunk] |}.

Definition fp_c : diff.FilePatch :=
  {| diff.IsBinary := false;
     diff.Files := (None, Some (file "c.md"));
     diff.Chunks := [chunk] |}.

Definition fp_old : diff.FilePatch :=
  {| diff.IsBinary := false;
     diff.Files := (Some (file "old.txt"), None);
     diff.Chunks := [] |}.

Definition fp_ren : diff.FilePatch :=
  {| diff.IsBinary := false;
     diff.Files := (Some (file "x.go"), Some (file "a.go"));
     diff.Chunks := [] |}.

Definition fp_bin : diff.FilePatch :=
  {| diff.IsBinary := true;
     diff.Files := (Some (file "img.png"), Some (file "img.png"));
     diff.Chunks := [] |}.

Definition entry (name : string) : TreeEntry :=
  {| Name := name; EntryMode := 33188; EntryHash := "0000" |}.

Definition entries : list TreeEntry := [entry "a.go"; entry "b.go"; entry "c.md"].

(** An encoder that fails on a binary patch and otherwise writes the
    two prefixes. *)
Definition Encode (enc : diff.UnifiedEncoder) (fps : list diff.FilePatch)
    (message : string) : result string :=
  if existsb diff.IsBinary fps then Err (Errorf "cannot encode" [])
  else Ok (diff.srcPrefix enc +:+ ".." +:+ diff.dstPrefix enc).

Definition Render (s : string) : string := s.

Definition index : gmap string diff.FilePatch :=
  <["c.md" := fp_c]> (<["a.go" := fp_a]> ∅).

Definition index_bin : gmap string diff.FilePatch :=
  <["img.png" := fp_bin]> index.

(** A small page template: it writes the page title, expands the globs
    of the root section in order, renders every path they match, and
    ends with the list of the remaining patches. *)
Fixpoint renderAll (paths : list string) (k : Tmpl) : Tmpl :=
  match paths with
  | [] => k
  | path :: paths' => TRenderPatch path (fun html => TText html (renderAll paths' k))
  end.

Fixpoint expandAll (globs : list string) (k : Tmpl) : Tmpl :=
  match globs with
  | [] => k
  | globPattern :: globs' =>
      TExpandGlob globPattern (fun paths => renderAll paths (expandAll globs' k))
  end.

Fixpoint writeAll (lines : list string) : Tmpl :=
  match lines with
  | [] => TEnd
  | line :: lines' => TText line (writeAll lines')
  end.

Definition page (data : Page) : Tmpl :=
  TText (PageTitle data)
    (expandAll (Globs (Def data)) (TRemainingPatches writeAll)).

Definition pageOf (globs : list string) : Page :=
  {| PageTitle := "fork";
     Def := {| Title := "all"; Description := ""; Globs := globs; Sub := [] |} |}.

Definition main (fps : list diff.FilePatch) (data : Page) : M unit :=
  main_tail Encode Render Render filepath.Match page "master" "HEAD" entries
    fps data.

End Sample.

(** ** The whole of [main]

    What [main] asks of the operating system and of the imported
    packages is a parameter: opening and decoding the page definition,
    opening the repository, resolving a reference, loading a commit and
    its tree, computing the patch between two trees, parsing the embedded
    page template, and opening the output file.  The deferred [Close]
    calls have no effect on what is modelled here. *)

(** The command-line flags, and the values [flag.String] gives them by
    default. *)
Record Flags : Type := mkFlags {
  flag_repo : string;
  flag_target : string;
  flag_base : string;
  flag_fork : string;
  flag_out : string
}.

Definition defaultFlags : Flags :=
  {| flag_repo := "."; flag_target := "HEAD"; flag_base := "master";
     flag_fork := "fork.yaml"; flag_out := "index.html" |}.

(** [plumbing.Reference], the name and the hash of it. *)
Record Reference : Type := mkReference { RefName : string; RefHash : string }.

(** The operand [*ref] of a formatting call, kept as the name of the
    reference. *)
Definition any_of_Reference (ref : Reference) : any := AnyString (RefName ref).

(** [object.Tree]. *)
Record Tree : Type := mkTree { Entries : list TreeEntry }.

Definition err_of {A} (r : result A) : option error :=
  match r with Ok _ => None | Err e => Some e end.

Definition ok {A} (r : result A) : option A :=
  match r with Ok v => Some v | Err _ => None end.

(** [v, err := f(...); must(err, msg, margs...)] where the operands do
    not depend on [v].  After an error [must] has left the program, so
    the last branch is never reached. *)
Definition mustOk {A} (r : result A) (msg : string) (margs : list any) : M A :=
  _ <- must (err_of r) msg margs ;;
  match r with
  | Ok v => ret v
  | Err _ => panic
  end.

(** [ref, err := repo.Reference(...); must(err, msg, *ref)].  The
    operand [*ref] is evaluated before [must] is called; after an error
    [ref] is nil and the dereference panics. *)
Definition mustRef (r : result Reference) (msg : string) : M Reference :=
  match r with
  | Err _ => panic
  | Ok ref =>
      _ <- must None msg [any_of_Reference ref] ;;
      ret ref
  end.

(** What [main] hands to the template execution when every step before
    it has succeeded. *)
Record Prepared : Type := mkPrepared {
  prep_page : Page;
  prep_targetTree : Tree;
  prep_patches : list diff.FilePatch;
  prep_templ : Page -> Tmpl
}.

Section Program.

Variables Repository Commit : Type.

(** [os.OpenFile(path, os.O_RDONLY, 0)], the file as its content, and
    the strict YAML decoder ([KnownFields(true)]) on it. *)
Variable os_Open : string -> result string.
Variable yaml_Decode : string -> result Page.

(** go-git: [git.PlainOpen], [repo.Reference(name, true)],
    [repo.CommitObject], [commit.Tree] and
    [receiver.PatchContext(ctx, argument)] with the [FilePatches] of its
    result.  The patch goes from the receiver to the argument: in a file
    patch, [from] is the file of the receiver and [to] the file of the
    argument. *)
Variable git_PlainOpen : string -> result Repository.
Variable repo_Reference : Repository -> string -> result Reference.
Variable repo_CommitObject : Repository -> string -> result Commit.
Variable commit_Tree : Commit -> result Tree.
Variable tree_PatchContext : Tree -> Tree -> result (list diff.FilePatch).

(** [template.ParseFS(page)] on the embedded template, a call that
    names no pattern, and
    [os.OpenFile(out, os.O_WRONLY|os.O_CREATE, 0o755)]. *)
Variable template_ParseFS : result (Page -> Tmpl).
Variable os_OpenFile : string -> result unit.

Variable Encode : diff.UnifiedEncoder -> list diff.FilePatch -> string -> result string.
Variable t2html_Render : string -> string.
Variable markdown_ToHTML : string -> string.
Variable filepath_Match : string -> string -> bool * option error.

(** [func readPageYaml(path string)], its two results as a [result]. *)
Definition readPageYaml (path : string) : result Page :=
  match os_Open path with
  | Err err =>
      Err (Errorf "failed to read page YAML file: %w" [any_of_error err])
  | Ok f =>
      match yaml_Decode f with
      | Err err =>
          Err (Errorf "failed to decode page YAML file: %w" [any_of_error err])
      | Ok page => Ok page
      end
  end.

(** [func main()], the flags parsed. *)
Definition main (flags : Flags) : M unit :=
  pageDefinition <-
    mustOk (readPageYaml (flag_fork flags))
      "failed to read page definition %q" [AnyString (flag_fork flags)] ;;
  repo <-
    mustOk (git_PlainOpen (flag_repo flags))
      "failed to open git repository %q" [AnyString (flag_repo flags)] ;;
  baseRef <-
    mustRef (repo_Reference repo (flag_base flags))
      "failed to find base git ref %q" ;;
  targetRef <-
    mustRef (repo_Reference repo (flag_target flags))
      "failed to find target git ref %q" ;;
  baseCommit <-
    mustOk (repo_CommitObject repo (RefHash baseRef))
      "failed to open base commit %s" [AnyString (RefHash baseRef)] ;;
  baseTree <- mustOk (commit_Tree baseCommit) "failed to open base git tree" [] ;;
  targetCommit <-
    mustOk (repo_CommitObject repo (RefHash targetRef))
      "failed to open target commit %s" [AnyString (RefHash targetRef)] ;;
  targetTree <-
    mustOk (commit_Tree targetCommit) "failed to open target git tree" [] ;;
  forkPatch <-
    mustOk (tree_PatchContext targetTree baseTree)
      "failed to compute patch between base and target" [] ;;
  patchByName <- indexPatches forkPatch ∅ ;;
  let remaining0 := seedRemaining (rangeKeys (dom patchByName)) in
  templ <- mustOk template_ParseFS "failed to parse page template" [] ;;
  f <- mustOk (os_OpenFile (flag_out flags)) "failed to open output file" [] ;;
  err <- ExecuteTemplate Encode t2html_Render markdown_ToHTML filepath_Match
           templ patchByName (Entries targetTree) (flag_base flags)
           (flag_target flags) remaining0 pageDefinition ;;
  must err "failed to build page" [].

(** The results of the steps of [main] before the template execution,
    when all of them succeed. *)
Definition prepare (flags : Flags) : option Prepared :=
  pageDefinition ← ok (readPageYaml (flag_fork flags));
  repo ← ok (git_PlainOpen (flag_repo flags));
  baseRef ← ok (repo_Reference repo (flag_base flags));
  targetRef ← ok (repo_Reference repo (flag_target flags));
  baseCommit ← ok (repo_CommitObject repo (RefHash baseRef));
  baseTree ← ok (commit_Tree baseCommit);
  targetCommit ← ok (repo_CommitObject repo (RefHash targetRef));
  targetTree ← ok (commit_Tree targetCommit);
  forkPatch ← ok (tree_PatchContext targetTree baseTree);
  templ ← ok template_ParseFS;
  _ ← ok (os_OpenFile (flag_out flags));
  Some {| prep_page := pageDefinition; prep_targetTree := targetTree;
          prep_patches := forkPatch; prep_templ := templ |}.

End Program.

(** The process after [must] has printed [msg] and the error [e]. *)
Definition exitProc (p : Proc) (msg : string) (margs : list any) (e : error) : Proc :=
  {| stderr := stderr p ++ [Fprintf msg margs;
                            Fprintf (String "010" "error: %v") [any_of_error e]];
     written := written p |}.

(** The formats of the messages [main] can print before it exits. *)
Definition mainMessages : list string :=
  ["failed to read page definition %q";
   "failed to open git repository %q";
   "failed to open base commit %s";
   "failed to open base git tree";
   "failed to open target commit %s";
   "failed to open target git tree";
   "failed to compute patch between base and target";
   "failed to parse page template";
   "failed to open output file";
   "failed to build page"].

(** ** A sample world

    A page definition in [fork.yaml] with the one glob [*.md]; a
    repository in [.] with the references [master] and [HEAD]; the
    target tree and the patches of the sample inputs above. *)
Module SampleRun.

Definition noSuch (what : string) : error := Errorf "not found: %s" [AnyString what].

Definition os_Open (path : string) : result string :=
  if String.eqb path "fork.yaml" then Ok "title: fork" else Err (noSuch path).

Definition yaml_Decode (content : string) : result Page :=
  if String.eqb content "title: fork" then Ok (Sample.pageOf ["*.md"])
  else Err (Errorf "yaml: unmarshal errors" []).

Definition git_PlainOpen (path : string) : result unit :=
  if String.eqb path "." then Ok tt else Err (noSuch path).

Definition repo_Reference (repo : unit) (name : string) : result Reference :=
  if String.eqb name "master" then Ok {| RefName := "master"; RefHash := "b000" |}
  else if String.eqb name "HEAD" then Ok {| RefName := "HEAD"; RefHash := "t000" |}
  else Err (noSuch name).

Definition repo_CommitObject (repo : unit) (hash : string) : result string :=
  Ok hash.

Definition commit_Tree (commit : string) : result Tree :=
  if String.eqb commit "t000" then Ok {| Entries := Sample.entries |}
  else Ok {| Entries := [] |}.

Definition tree_PatchContext (target base : Tree) : result (list diff.FilePatch) :=
  Ok [Sample.fp_c; Sample.fp_a].

Definition os_OpenFile (path : string) : result unit :=
  if String.eqb path "" then Err (noSuch path) else Ok tt.

(** The same world with the error of a [ParseFS] call that names no
    pattern. *)
Definition noFiles : error :=
  Errorf "template: no files named in call to ParseFiles" [].

Definition mainUnparsed : Flags -> M unit :=
  main unit string os_Open yaml_Decode git_PlainOpen repo_Reference
    repo_CommitObject commit_Tree tree_PatchContext (Err noFiles)
    os_OpenFile Sample.Encode Sample.Render Sample.Render filepath.Match.

Definition main : Flags -> M unit :=
  main unit string os_Open yaml_Decode git_PlainOpen repo_Reference
    repo_CommitObject commit_Tree tree_PatchContext (Ok Sample.page)
    os_OpenFile Sample.Encode Sample.Render Sample.Render filepath.Match.

Definition prepare : Flags -> option Prepared :=
  prepare unit string os_Open yaml_Decode git_PlainOpen repo_Reference
    repo_CommitObject commit_Tree tree_PatchContext (Ok Sample.page)
    os_OpenFile.

(** The default flags with a page definition that does not exist, and
    with a base reference that does not exist. *)
Definition noPage : Flags :=
  {| flag_repo := "."; flag_target := "HEAD"; flag_base := "master";
     flag_fork := "missing.yaml"; flag_out := "index.html" |}.

Definition noBase : Flags :=
  {| flag_repo := "."; flag_target := "HEAD"; flag_base := "main";
     flag_fork := "fork.yaml"; flag_out := "index.html" |}.

End SampleRun.

(** ** A fork that renames a file

    The base tree holds [x.go], the target tree the same content as
    [y.go].  [PatchContext] is go-git's on two such trees of one entry
    each: one file patch, whose [from] is the receiver's file and whose
    [to] is the argument's. *)
Module ForkRename.

Definition baseTree : Tree := {| Entries := [Sample.entry "x.go"] |}.

Definition targetTree : Tree := {| Entries := [Sample.entry "y.go"] |}.

Definition PatchContext (receiver argument : Tree) : result (list diff.FilePatch) :=
  match Entries receiver, Entries argument with
  | [r], [a] =>
      Ok [{| diff.IsBinary := false;
             diff.Files := (Some (Sample.file (Name r)), Some (Sample.file (Name a)));
             diff.Chunks := [] |}]
  | _, _ => Ok []
  end.

(** [forkPatch, err := targetTree.PatchContext(context.Background(), baseTree)] *)
Definition forkPatch : result (list diff.FilePatch) :=
  PatchContext targetTree baseTree.

(** The patch of the rename as [main] receives it. *)
Definition fp : diff.FilePatch :=
  {| diff.IsBinary := false;
     diff.Files := (Some (Sample.file "y.go"), Some (Sample.file "x.go"));
     diff.Chunks := [] |}.

Definition index : gmap string diff.FilePatch := <["x.go" := fp]> ∅.

End ForkRename.

(** * Properties *)

(** ** The patch index *)

Lemma patchesAt_cons_eq k fp fps :
  patchKey fp = Some k -> patchesAt k (fp :: fps) = fp :: patchesAt k fps.
Proof. intros Hk. unfold patchesAt. by rewrite filter_cons_True. Qed.

Lemma patchesAt_cons_ne k fp fps :
  patchKey fp <> Some k -> patchesAt k (fp :: fps) = patchesAt k fps.
Proof. intros Hk. unfold patchesAt. by rewrite filter_cons_False. Qed.

(** The loop never prints, and a key holds the last patch stored under
    it, or what the map held before. *)
Lemma indexPatches_Val fps : forall m p idx p',
  indexPatches fps m p = (Val idx, p') ->
  p' = p /\
  forall k, idx !! k = match last (patchesAt k fps) with
                       | Some fp => Some fp
                       | None => m !! k
                       end.
Proof.
  induction fps as [|fp fps IH]; intros m p idx p' Hrun; simpl in Hrun.
  - unfold ret in Hrun. by simplify_eq.
  - destruct (patchKey fp) as [k0|] eqn:Hk0; [|by unfold panic in Hrun].
    destruct (IH _ _ _ _ Hrun) as [-> Hlook]. split; [done|].
    intros k. rewrite Hlook. destruct (decide (k0 = k)) as [->|Hne].
    + rewrite patchesAt_cons_eq by done.
      destruct (patchesAt k fps) as [|fp' l] eqn:Hl.
      * simpl. by rewrite lookup_insert_eq.
      * rewrite last_cons_cons.
        destruct (last (fp' :: l)) eqn:Hlast; [done|].
        by apply last_None in Hlast.
    + rewrite patchesAt_cons_ne by congruence.
      destruct (last (patchesAt k fps)); [done|].
      by rewrite lookup_insert_ne.
Qed.

(** The loop ends normally exactly when no patch has both sides nil. *)
Lemma indexPatches_total fps : forall m p,
  Forall (fun fp => is_Some (patchKey fp)) fps ->
  exists idx, indexPatches fps m p = (Val idx, p).
Proof.
  induction fps as [|fp fps IH]; intros m p Hall; simpl.
  - by eexists.
  - inversion Hall as [|? ? [k Hk] Hall']; subst. rewrite Hk. by apply IH.
Qed.

Lemma indexPatches_Panic fps : forall m p,
  Exists (fun fp => patchKey fp = None) fps ->
  indexPatches fps m p = (Panic, p).
Proof.
  induction fps as [|fp fps IH]; intros m p Hex; simpl.
  - by inversion Hex.
  - destruct (patchKey fp) as [k|] eqn:Hk; [|done].
    apply IH. inversion Hex; [congruence|done].
Qed.

Lemma patchKeys_cases fps :
  Forall (fun fp => is_Some (patchKey fp)) fps \/
  Exists (fun fp => patchKey fp = None) fps.
Proof.
  induction fps as [|fp fps [IH|IH]].
  - left. constructor.
  - destruct (patchKey fp) eqn:Hk.
    + left. constructor; [by rewrite Hk|done].
    + right. by constructor.
  - right. by constructor 2.
Qed.

Lemma patchKey_spec fp k :
  patchKey fp = Some k <->
  match diff.Files fp with
  | (_, Some to) => k = diff.Path to
  | (Some from, None) => k = diff.Path from
  | (None, None) => False
  end.
Proof.
  unfold patchKey. destruct (diff.Files fp) as [[from|] [to|]];
    split; intros; simplify_eq; done.
Qed.

(** Every file patch that has a file on some side is indexed under the
    path of its [to] file when there is one and under the path of its
    [from] file otherwise, whatever trees the two sides come from: the
    loop ends normally, each key of the index is that path of the patch
    it holds, and each patch finds its path among the keys. *)
Theorem index_key_is_canonical_path (fps : list diff.FilePatch) (p : Proc) :
  Forall (fun fp => fst (diff.Files fp) <> None \/ snd (diff.Files fp) <> None) fps ->
  exists idx,
    indexPatches fps ∅ p = (Val idx, p) /\
    (forall k fp, idx !! k = Some fp ->
       fp ∈ fps /\
       match diff.Files fp with
       | (_, Some to) => k = diff.Path to
       | (Some from, None) => k = diff.Path from
       | (None, None) => False
       end) /\
    (forall fp, fp ∈ fps ->
       match diff.Files fp with
       | (_, Some to) => is_Some (idx !! diff.Path to)
       | (Some from, None) => is_Some (idx !! diff.Path from)
       | (None, None) => False
       end).
Proof.
  intros Hall.
  assert (Hkeys : Forall (fun fp => is_Some (patchKey fp)) fps).
  { eapply Forall_impl; [exact Hall|]. intros fp Hfp. unfold patchKey.
    cbv beta in Hfp. revert Hfp.
    destruct (diff.Files fp) as [[from|] [to|]]; simpl; eauto.
    by intros [?|?]. }
  destruct (indexPatches_total fps ∅ p Hkeys) as [idx Hrun].
  exists idx. split; [done|].
  destruct (indexPatches_Val _ _ _ _ _ Hrun) as [_ Hlook]. split.
  - intros k fp Hfp. rewrite Hlook in Hfp.
    destruct (last (patchesAt k fps)) as [fp'|] eqn:Hlast;
      [|by rewrite lookup_empty in Hfp].
    simplify_eq. apply last_Some_elem_of in Hlast.
    apply list_elem_of_filter in Hlast as [Hk Hin]. split; [done|].
    by apply patchKey_spec.
  - intros fp Hin.
    rewrite Forall_forall in Hkeys. destruct (Hkeys fp Hin) as [k Hk].
    assert (Hsome : is_Some (idx !! k)).
    { rewrite Hlook.
      destruct (last (patchesAt k fps)) as [fp'|] eqn:Hlast; [by eexists|].
      apply last_None in Hlast.
      assert (fp ∈ patchesAt k fps) as Hfp
        by (apply list_elem_of_filter; done).
      rewrite Hlast in Hfp. by apply not_elem_of_nil in Hfp. }
    apply patchKey_spec in Hk.
    destruct (diff.Files fp) as [[from|] [to|]]; by subst.
Qed.

Lemma index_key_is_canonical_path_witness :
  exists idx,
    indexPatches [Sample.fp_a; Sample.fp_c; Sample.fp_old] ∅ proc0 = (Val idx, proc0) /\
    is_Some (idx !! "old.txt") /\ is_Some (idx !! "c.md").
Proof.
  destruct (index_key_is_canonical_path
              [Sample.fp_a; Sample.fp_c; Sample.fp_old] proc0)
    as (idx & Hrun & _ & Hin).
  - constructor; [by left|]. constructor; [by right|].
    constructor; [by left|]. constructor.
  - exists idx. split; [exact Hrun|]. split.
    + apply (Hin Sample.fp_old). repeat constructor.
    + apply (Hin Sample.fp_c). repeat constructor.
Defined.

(** C2 fails on the code.  [main] calls [PatchContext] on the target
    tree with the base tree as argument, so the [to] file of a patch is
    the file before the change.  For a fork that renames [x.go] to
    [y.go] the patch is stored under the old path [x.go], no key is the
    new path [y.go], and [renderPatch] on [y.go], the path the globs
    find in the target tree, fails. *)
Theorem fork_rename_keyed_by_old_path :
  ForkRename.forkPatch = Ok [ForkRename.fp] /\
  diff.Files ForkRename.fp
    = (Some (Sample.file "y.go"), Some (Sample.file "x.go")) /\
  patchKey ForkRename.fp = Some "x.go" /\
  indexPatches [ForkRename.fp] ∅ proc0 = (Val ForkRename.index, proc0) /\
  ForkRename.index !! "x.go" = Some ForkRename.fp /\
  ForkRename.index !! "y.go" = None /\
  expandGlob (Entries ForkRename.targetTree) filepath.Match "*.go" = Ok ["y.go"] /\
  renderPatch ForkRename.index "master" "HEAD" Sample.Encode Sample.Render
    "y.go" (dom ForkRename.index)
  = (Err (notFound "y.go"), dom ForkRename.index).
Proof.
  repeat split; vm_compute; reflexivity.
Qed.

(** C4, as the code has it.  When several file patches map to the same
    path, the index holds the last of them in iteration order; the loop
    prints nothing, for a collision or otherwise, and ends either
    normally or, on a patch with no file on either side, in a panic. *)
Theorem index_collision_later_wins_silently (fps : list diff.FilePatch) (p : Proc) :
  match indexPatches fps ∅ p with
  | (Val idx, p') => p' = p /\ forall k, idx !! k = last (patchesAt k fps)
  | (Exit _, _) => False
  | (Panic, p') => p' = p /\ Exists (fun fp => patchKey fp = None) fps
  end.
Proof.
  destruct (patchKeys_cases fps) as [Hall|Hnone].
  - destruct (indexPatches_total fps ∅ p Hall) as [idx Hrun]. rewrite Hrun.
    destruct (indexPatches_Val _ _ _ _ _ Hrun) as [_ Hlook]. split; [done|].
    intros k. rewrite Hlook, lookup_empty. by destruct (last _).
  - by rewrite (indexPatches_Panic _ _ _ Hnone).
Qed.

(** C4 fails as stated: a patch that modifies [a.go] and a rename onto
    [a.go] collide; the later replaces the earlier and nothing is
    printed. *)
Lemma index_collision_prints_nothing :
  patchKey Sample.fp_a = patchKey Sample.fp_ren /\
  Sample.fp_a <> Sample.fp_ren /\
  indexPatches [Sample.fp_a; Sample.fp_ren] ∅ proc0
    = (Val (<["a.go" := Sample.fp_ren]> (<["a.go" := Sample.fp_a]> ∅)), proc0) /\
  (<["a.go" := Sample.fp_ren]> (<["a.go" := Sample.fp_a]> ∅) : gmap string diff.FilePatch)
    !! "a.go" = Some Sample.fp_ren /\
  stderr proc0 = [].
Proof.
  split; [reflexivity|]. split; [discriminate|].
  split; [reflexivity|]. split; [|reflexivity].
  by rewrite lookup_insert_eq.
Qed.

(** ** Sorting and the two loops over map keys *)

Lemma append_loop (order out : list string) :
  foldl (fun out k => out ++ [k]) out order = out ++ order.
Proof.
  revert out. induction order as [|k order IH]; intros out; simpl.
  - by rewrite app_nil_r.
  - by rewrite IH, <- app_assoc.
Qed.

Lemma sort_Strings_sorted (l : list string) :
  StronglySorted String.le (sort_Strings l).
Proof. apply (StronglySorted_merge_sort String.le). Qed.

Lemma sort_Strings_perm (l : list string) : sort_Strings l ≡ₚ l.
Proof. apply merge_sort_Permutation. Qed.

(** A sorted list is determined by its elements. *)
Lemma sort_Strings_unique (l1 l2 : list string) :
  l1 ≡ₚ l2 -> sort_Strings l1 = sort_Strings l2.
Proof.
  intros Hperm. apply (StronglySorted_unique String.le).
  - apply sort_Strings_sorted.
  - apply sort_Strings_sorted.
  - by rewrite !sort_Strings_perm.
Qed.

Lemma seedRemaining_from (keys : list string) (acc : gset string) :
  foldl (fun remaining k => {[k]} ∪ remaining) acc keys = list_to_set keys ∪ acc.
Proof.
  revert acc. induction keys as [|k keys IH]; intros acc; simpl.
  - set_solver.
  - rewrite IH. set_solver.
Qed.

(** Whatever the order of the iteration, the loop leaves in [remaining]
    the keys of the index and nothing else. *)
Lemma seedRemaining_dom (patchByName : gmap string diff.FilePatch) (order : list string) :
  order ≡ₚ elements (dom patchByName) ->
  seedRemaining order = dom patchByName.
Proof.
  intros Hperm. unfold seedRemaining. rewrite seedRemaining_from.
  apply set_eq. intros k.
  rewrite elem_of_union, elem_of_list_to_set, Hperm, elem_of_elements.
  set_solver.
Qed.

Lemma remainingPatches_perm (remaining : gset string) :
  remainingPatches remaining ≡ₚ elements remaining.
Proof.
  unfold remainingPatches, remainingPatches_in, rangeKeys.
  rewrite append_loop. simpl. apply sort_Strings_perm.
Qed.

Lemma remainingPatches_NoDup (remaining : gset string) :
  NoDup (remainingPatches remaining).
Proof. rewrite remainingPatches_perm. apply NoDup_elements. Qed.

Lemma remainingPatches_elem_of (remaining : gset string) (path : string) :
  path ∈ remainingPatches remaining <-> path ∈ remaining.
Proof. by rewrite remainingPatches_perm, elem_of_elements. Qed.

(** C5. [remainingPatches] returns the paths of [remaining], each once,
    in increasing lexicographic order, and returns the same sequence
    whatever the order in which the map iteration visits the keys. *)
Theorem remainingPatches_sorted_deterministic (remaining : gset string) (order : list string) :
  order ≡ₚ elements remaining ->
  remainingPatches_in order = remainingPatches remaining /\
  StronglySorted String.le (remainingPatches remaining) /\
  NoDup (remainingPatches remaining) /\
  (forall path, path ∈ remainingPatches remaining <-> path ∈ remaining).
Proof.
  intros Hperm. split; [|split; [|split]].
  - unfold remainingPatches, remainingPatches_in, rangeKeys.
    rewrite !append_loop. simpl. by apply sort_Strings_unique.
  - apply sort_Strings_sorted.
  - apply remainingPatches_NoDup.
  - apply remainingPatches_elem_of.
Qed.

Lemma remainingPatches_sorted_deterministic_witness :
  remainingPatches_in ["a.go"; "c.md"] = remainingPatches (dom Sample.index) /\
  remainingPatches (dom Sample.index) = ["a.go"; "c.md"].
Proof.
  split.
  - apply (remainingPatches_sorted_deterministic (dom Sample.index) ["a.go"; "c.md"]).
    vm_compute. apply perm_swap.
  - vm_compute. reflexivity.
Defined.

(** ** The template functions *)

Lemma difference_singleton_twice (r : gset string) (path : string) :
  r ∖ {[path]} ∖ {[path]} = r ∖ {[path]}.
Proof. set_solver. Qed.

Lemma difference_singleton_absent (r : gset string) (path : string) :
  path ∉ r -> r ∖ {[path]} = r.
Proof. set_solver. Qed.

Section FuncsFacts.

Variable patchByName : gmap string diff.FilePatch.
Variable targetTree_Entries : list TreeEntry.
Variables baseRefStr targetRefStr : string.
Variable Encode : diff.UnifiedEncoder -> list diff.FilePatch -> string -> result string.
Variable t2html_Render : string -> string.
Variable markdown_ToHTML : string -> string.
Variable filepath_Match : string -> string -> bool * option error.

Local Abbreviation encoder := (newEncoder baseRefStr targetRefStr).
Local Abbreviation renderPatch' :=
  (renderPatch patchByName baseRefStr targetRefStr Encode t2html_Render).
Local Abbreviation expandGlob' := (expandGlob targetTree_Entries filepath_Match).
Local Abbreviation Execute' :=
  (Execute patchByName targetTree_Entries baseRefStr targetRefStr Encode
     t2html_Render markdown_ToHTML filepath_Match).
Local Abbreviation rendered' :=
  (rendered patchByName targetTree_Entries baseRefStr targetRefStr Encode
     t2html_Render markdown_ToHTML filepath_Match).

(** The three ways through [renderPatch]. *)
Lemma renderPatch_miss path remaining :
  patchByName !! path = None ->
  renderPatch' path remaining = (Err (notFound path), remaining).
Proof. intros Hmiss. unfold renderPatch. by rewrite Hmiss. Qed.

Lemma renderPatch_encode_error path remaining p e :
  patchByName !! path = Some p ->
  Encode encoder [p] "" = Err e ->
  renderPatch' path remaining = (Err (Errorf "" []), remaining).
Proof.
  intros Hp He. unfold renderPatch, enc_Encode. rewrite Hp. simpl. by rewrite He.
Qed.

Lemma renderPatch_ok path remaining p out :
  patchByName !! path = Some p ->
  Encode encoder [p] "" = Ok out ->
  renderPatch' path remaining = (Ok (t2html_Render out), remaining ∖ {[path]}).
Proof.
  intros Hp He. unfold renderPatch, enc_Encode. rewrite Hp. simpl. by rewrite He.
Qed.

Lemma renderPatch_cases path remaining :
  (patchByName !! path = None /\
   renderPatch' path remaining = (Err (notFound path), remaining)) \/
  (exists p e, patchByName !! path = Some p /\ Encode encoder [p] "" = Err e /\
   renderPatch' path remaining = (Err (Errorf "" []), remaining)) \/
  (exists p out, patchByName !! path = Some p /\ Encode encoder [p] "" = Ok out /\
   renderPatch' path remaining = (Ok (t2html_Render out), remaining ∖ {[path]})).
Proof.
  destruct (patchByName !! path) as [p|] eqn:Hp.
  - destruct (Encode encoder [p] "") as [out|e] eqn:He.
    + right; right. exists p, out. eauto using renderPatch_ok.
    + right; left. exists p, e. eauto using renderPatch_encode_error.
  - left. eauto using renderPatch_miss.
Qed.

(** The result of [renderPatch] does not depend on [remaining]. *)
Lemma renderPatch_result path r1 r2 :
  fst (renderPatch' path r1) = fst (renderPatch' path r2).
Proof.
  destruct (renderPatch_cases path r1) as [[Hp H1]|[(p & e & Hp & He & H1)|(p & out & Hp & He & H1)]];
    rewrite H1; simpl.
  - by rewrite (renderPatch_miss _ r2 Hp).
  - by rewrite (renderPatch_encode_error _ r2 _ _ Hp He).
  - by rewrite (renderPatch_ok _ r2 _ _ Hp He).
Qed.

(** An execution removes from [remaining] the paths rendered and
    nothing else, and renders only paths of the index. *)
Lemma Execute_remaining t : forall st,
  remaining (snd (Execute' t st)) = remaining st ∖ list_to_set (rendered' t st).
Proof.
  induction t as [|s k IH|md k IH|path k IH|k IH|def level k IH|pat k IH];
    intros st; simpl.
  - set_solver.
  - by rewrite IH.
  - by rewrite IH.
  - destruct (renderPatch_cases path (remaining st))
      as [[Hp H1]|[(p & e & Hp & He & H1)|(p & out & Hp & He & H1)]];
      rewrite H1; simpl; [set_solver..|].
    rewrite IH. simpl. set_solver.
  - by rewrite IH.
  - by rewrite IH.
  - destruct (expandGlob' pat); simpl; [by rewrite IH|set_solver].
Qed.

Lemma rendered_in_index t : forall st path,
  path ∈ rendered' t st -> path ∈ dom patchByName.
Proof.
  induction t as [|s k IH|md k IH|path0 k IH|k IH|def level k IH|pat k IH];
    intros st path; simpl; eauto.
  - by intros ?%not_elem_of_nil.
  - destruct (renderPatch_cases path0 (remaining st))
      as [[Hp H1]|[(p & e & Hp & He & H1)|(p & out & Hp & He & H1)]];
      rewrite H1; simpl; try by intros ?%not_elem_of_nil.
    intros [->|Hin]%elem_of_cons; [|by eauto].
    apply elem_of_dom. by eexists.
  - destruct (expandGlob' pat); eauto. by intros ?%not_elem_of_nil.
Qed.

(** C10. [renderPatch] deletes the path from [remaining] only when the
    path has a patch and the encoder returned without error; when it
    returns an error, because the path has no patch or because the
    encoder failed, [remaining] is as before the call. *)
Theorem renderPatch_claims_only_on_success (path : string) (remaining : gset string) :
  match renderPatch' path remaining with
  | (Err e, remaining') =>
      remaining' = remaining /\
      (patchByName !! path = None \/
       exists p e', patchByName !! path = Some p /\ Encode encoder [p] "" = Err e')
  | (Ok html, remaining') =>
      remaining' = remaining ∖ {[path]} /\
      exists p out, patchByName !! path = Some p /\
                    Encode encoder [p] "" = Ok out /\
                    html = t2html_Render out
  end.
Proof.
  destruct (renderPatch_cases path remaining)
    as [[Hp H1]|[(p & e & Hp & He & H1)|(p & out & Hp & He & H1)]]; rewrite H1.
  - split; [done|]. by left.
  - split; [done|]. right. by exists p, e.
  - split; [done|]. by exists p, out.
Qed.


(** C7, as the code has it.  Calling [renderPatch] on a path a second
    time returns what the first call returned and leaves [remaining]
    as the first call left it; a call on a path that is not in
    [remaining] leaves [remaining] as it was; once a call on a path
    has succeeded, every later call on it succeeds; a call on a path
    that is not a key of the index returns the error "failed to find
    file patch". *)
Theorem renderPatch_twice_as_once (path : string) (remaining : gset string) :
  renderPatch' path (snd (renderPatch' path remaining)) = renderPatch' path remaining /\
  (path ∉ remaining -> snd (renderPatch' path remaining) = remaining) /\
  (forall r0 html r1,
     renderPatch' path r0 = (Ok html, r1) ->
     renderPatch' path remaining = (Ok html, remaining ∖ {[path]})) /\
  (path ∉ dom patchByName ->
   renderPatch' path remaining = (Err (notFound path), remaining)).
Proof.
  split; [|split; [|split]].
  - destruct (renderPatch_cases path remaining)
      as [[Hp H1]|[(p & e & Hp & He & H1)|(p & out & Hp & He & H1)]];
      rewrite H1; simpl; [done..|].
    rewrite (renderPatch_ok _ _ _ _ Hp He). f_equal.
    apply difference_singleton_twice.
  - intros Hnot.
    destruct (renderPatch_cases path remaining)
      as [[Hp H1]|[(p & e & Hp & He & H1)|(p & out & Hp & He & H1)]];
      rewrite H1; simpl; [done..|]. by apply difference_singleton_absent.
  - intros r0 html r1 H0.
    pose proof (renderPatch_result path r0 remaining) as Hres.
    rewrite H0 in Hres. simpl in Hres.
    destruct (renderPatch_cases path remaining)
      as [[Hp H1]|[(p & e & Hp & He & H1)|(p & out & Hp & He & H1)]];
      rewrite H1 in Hres |- *; simpl in Hres; by simplify_eq.
  - intros Hnot. apply renderPatch_miss. by apply not_elem_of_dom.
Qed.

(** C1. Start from [remaining] as [main] seeds it and execute any
    template.  Every key of the patch index is then either still in
    [remaining] or was the path of a call of [renderPatch] that
    returned without error, and never both; [remaining] holds only
    keys of the index; and [remainingPatches] returns the paths of
    [remaining], each exactly once. *)
Theorem coverage_conservation (t : Tmpl) (out : list string) :
  let st0 := {| remaining := seedRemaining (rangeKeys (dom patchByName));
                output := out |} in
  let rest := remaining (snd (Execute' t st0)) in
  (forall k, k ∈ dom patchByName <-> k ∈ rest \/ k ∈ rendered' t st0) /\
  (forall k, k ∈ rest -> k ∉ rendered' t st0) /\
  rest ⊆ dom patchByName /\
  NoDup (remainingPatches rest) /\
  (forall k, k ∈ remainingPatches rest <-> k ∈ rest).
Proof.
  intros st0 rest.
  assert (Hrest : rest = dom patchByName ∖ list_to_set (rendered' t st0)).
  { unfold rest. rewrite Execute_remaining. unfold st0. simpl.
    by rewrite (seedRemaining_dom patchByName). }
  pose proof (rendered_in_index t st0) as Hin.
  split; [|split; [|split; [|split]]];
    [| | |apply remainingPatches_NoDup|apply remainingPatches_elem_of].
  - intros k. rewrite Hrest, elem_of_difference, elem_of_list_to_set.
    split; [|by intros [[? _]|?]; auto].
    intros Hk. destruct (decide (k ∈ rendered' t st0)); auto.
  - intros k. rewrite Hrest, elem_of_difference, elem_of_list_to_set.
    by intros [_ ?].
  - rewrite Hrest. set_solver.
Qed.

(** C6. [remaining] starts as the key set of the patch index, whatever
    the order of the seeding loop; a call of [renderPatch], and the
    execution of any template, leaves it a subset of what it was, so
    never larger; and a path that a call of [renderPatch] has claimed
    is in [remaining] neither right after the call nor after anything
    executed later. *)
Theorem remaining_only_shrinks :
  (forall order, order ≡ₚ elements (dom patchByName) ->
     seedRemaining order = dom patchByName) /\
  (forall path r,
     snd (renderPatch' path r) ⊆ r /\
     size (snd (renderPatch' path r)) <= size r) /\
  (forall t st,
     remaining (snd (Execute' t st)) ⊆ remaining st /\
     size (remaining (snd (Execute' t st))) <= size (remaining st)) /\
  (forall path r html r1,
     renderPatch' path r = (Ok html, r1) ->
     (path ∉ r1) /\
     forall t out,
       path ∉ remaining (snd (Execute' t {| remaining := r1; output := out |}))).
Proof.
  assert (Hcall : forall path r, snd (renderPatch' path r) ⊆ r).
  { intros path r.
    destruct (renderPatch_cases path r)
      as [[Hp H1]|[(p & e & Hp & He & H1)|(p & out & Hp & He & H1)]];
      rewrite H1; simpl; set_solver. }
  assert (Hexec : forall t st, remaining (snd (Execute' t st)) ⊆ remaining st).
  { intros t st. rewrite Execute_remaining. set_solver. }
  split; [apply seedRemaining_dom|]. split; [|split].
  - intros path r. split; [done|]. by apply subseteq_size.
  - intros t st. split; [done|]. by apply subseteq_size.
  - intros path r html r1 Hok.
    assert (Hr1 : path ∉ r1).
    { destruct (renderPatch_cases path r)
        as [[Hp H1]|[(p & e & Hp & He & H1)|(p & out & Hp & He & H1)]];
        rewrite H1 in Hok; simplify_eq. set_solver. }
    split; [done|]. intros t out Hin.
    apply Hr1. by apply (Hexec t {| remaining := r1; output := out |}).
Qed.

(** ** [expandGlob] *)

Local Abbreviation noError pat :=
  (fun entry : TreeEntry => snd (filepath_Match pat (Name entry)) = None).
Local Abbreviation matches pat :=
  (fun name : string => fst (filepath_Match pat name) = true).

Lemma expandGlob_from_ok pat entries : forall i out,
  Forall (noError pat) entries ->
  expandGlob_from filepath_Match pat entries i out
    = Ok (out ++ filter (matches pat) (Name <$> entries)).
Proof.
  induction entries as [|entry entries IH]; intros i out Hall; simpl.
  - by rewrite app_nil_r.
  - inversion Hall as [|? ? Hentry Hall']; subst. simpl in Hentry.
    destruct (filepath_Match pat (Name entry)) as [ok err] eqn:Hm.
    simpl in Hentry. subst err. destruct ok.
    + rewrite IH by done. rewrite filter_cons_True by (by rewrite Hm).
      by rewrite <- app_assoc.
    + rewrite IH by done. by rewrite filter_cons_False by (by rewrite Hm).
Qed.

Lemma expandGlob_from_err pat pre entry post : forall i out,
  Forall (noError pat) pre ->
  snd (filepath_Match pat (Name entry)) <> None ->
  expandGlob_from filepath_Match pat (pre ++ entry :: post) i out
    = Err (globError (i + Z.of_nat (length pre)) (Name entry) pat).
Proof.
  induction pre as [|e pre IH]; intros i out Hall Herr; simpl.
  - destruct (filepath_Match pat (Name entry)) as [ok [err|]]; [|done].
    rewrite Z.add_0_r. by destruct ok.
  - inversion Hall as [|? ? He Hall']; subst. simpl in He.
    destruct (filepath_Match pat (Name e)) as [ok err]. simpl in He. subst err.
    replace (i + Z.of_nat (S (length pre)))%Z
      with ((i + 1) + Z.of_nat (length pre))%Z by lia.
    destruct ok; by apply IH.
Qed.

Lemma entries_first_error pat (entries : list TreeEntry) :
  Forall (noError pat) entries \/
  exists pre entry post,
    entries = pre ++ entry :: post /\ Forall (noError pat) pre /\
    snd (filepath_Match pat (Name entry)) <> None.
Proof.
  induction entries as [|e entries [IH|(pre & entry & post & -> & Hpre & Herr)]].
  - left. constructor.
  - destruct (snd (filepath_Match pat (Name e))) as [err|] eqn:He.
    + right. exists [], e, entries. split; [done|]. split; [constructor|].
      by rewrite He.
    + left. by constructor.
  - destruct (snd (filepath_Match pat (Name e))) as [err|] eqn:He.
    + right. exists [], e, (pre ++ entry :: post).
      split; [done|]. split; [constructor|]. by rewrite He.
    + right. exists (e :: pre), entry, post.
      split; [done|]. split; [by constructor|done].
Qed.

Lemma filter_matches_none pat (entries : list TreeEntry) :
  Forall (fun entry => filepath_Match pat (Name entry) = (false, None)) entries ->
  filter (matches pat) (Name <$> entries) = [].
Proof.
  induction 1 as [|entry entries Hentry _ IH]; [done|].
  simpl. by rewrite filter_cons_False by (by rewrite Hentry).
Qed.

(** C8. [expandGlob] matches the pattern against the names of the
    entries of the target tree's own listing and nothing below them:
    when no match reports an error its result is the names that
    match, in listing order, and a result it returns is always that
    list; a pattern that matches no entry yields the empty list; and
    the call leaves the execution state as it was. *)
Theorem expandGlob_flat_in_order (pat : string) :
  (Forall (noError pat) targetTree_Entries ->
   expandGlob' pat = Ok (filter (matches pat) (Name <$> targetTree_Entries))) /\
  (forall names,
     expandGlob' pat = Ok names ->
     names = filter (matches pat) (Name <$> targetTree_Entries)) /\
  (Forall (fun entry => filepath_Match pat (Name entry) = (false, None))
     targetTree_Entries ->
   expandGlob' pat = Ok []) /\
  (forall st, snd (Execute' (TExpandGlob pat (fun _ => TEnd)) st) = st).
Proof.
  assert (Hok : Forall (noError pat) targetTree_Entries ->
                expandGlob' pat
                = Ok (filter (matches pat) (Name <$> targetTree_Entries))).
  { intros Hall. unfold expandGlob. by rewrite expandGlob_from_ok. }
  split; [done|]. split; [|split].
  - intros names Hnames.
    destruct (entries_first_error pat targetTree_Entries)
      as [Hall|(pre & entry & post & Heq & Hpre & Herr)].
    + rewrite Hok in Hnames by done. by simplify_eq.
    + unfold expandGlob in Hnames.
      by rewrite Heq, expandGlob_from_err in Hnames.
  - intros Hnone. rewrite Hok.
    + f_equal. by apply filter_matches_none.
    + eapply Forall_impl; [exact Hnone|]. intros entry Hentry. simpl.
      by rewrite Hentry.
  - intros st. simpl. by destruct (expandGlob' pat).
Qed.


End FuncsFacts.

(** ** [filepath.Match] on the inputs used below *)


Example Match_go_a : filepath.Match "*.go" "a.go" = (true, None).
Proof. reflexivity. Qed.

Example Match_go_c : filepath.Match "*.go" "c.md" = (false, None).
Proof. reflexivity. Qed.

Example Match_class : filepath.Match "[a-c]?.go" "bx.go" = (true, None).
Proof. reflexivity. Qed.

(** A failed chunk ends the match before the rest of the pattern is
    looked at: the malformed [a*[] is an error on a name that starts
    with [a] and a plain mismatch on one that does not. *)
Example Match_late_error :
  filepath.Match "a*[" "b" = (false, None) /\
  filepath.Match "a*[" "a" = (false, Some filepath.ErrBadPattern).
Proof. split; reflexivity. Qed.

(** [?] and a class read a rune, not a byte. *)
Example Match_rune :
  filepath.Match "?" "é" = (true, None) /\
  filepath.Match "[à-ÿ].go" "é.go" = (true, None) /\
  filepath.Match "??" "é" = (false, None).
Proof. repeat split; reflexivity. Qed.

(** ** [main] *)

(** When the template execution returns an error, [main] prints
    "failed to build page" and the error, and exits with status 1; what
    the template wrote before the error stays in the output file. *)
Lemma main_tail_exit_on_error Encode Render ToHTML Match page
    base target entries fps data p idx e st :
  indexPatches fps ∅ p = (Val idx, p) ->
  Execute idx entries base target Encode Render ToHTML Match (page data)
    {| remaining := seedRemaining (rangeKeys (dom idx)); output := written p |}
    = (Some e, st) ->
  main_tail Encode Render ToHTML Match page base target entries fps data p
    = (Exit 1,
       {| stderr := stderr p ++ [Fprintf "failed to build page" []]
                      ++ [Fprintf (String "010" "error: %v") [any_of_error e]];
          written := output st |}).
Proof.
  intros Hidx Hexec. unfold main_tail, bind, ExecuteTemplate.
  rewrite Hidx, Hexec. simpl. unfold bind, eprintf, os_Exit. simpl.
  by rewrite <- app_assoc.
Qed.

Lemma main_tail_done Encode Render ToHTML Match page
    base target entries fps data p idx st :
  indexPatches fps ∅ p = (Val idx, p) ->
  Execute idx entries base target Encode Render ToHTML Match (page data)
    {| remaining := seedRemaining (rangeKeys (dom idx)); output := written p |}
    = (None, st) ->
  main_tail Encode Render ToHTML Match page base target entries fps data p
    = (Val tt, {| stderr := stderr p; written := output st |}).
Proof.
  intros Hidx Hexec. unfold main_tail, bind, ExecuteTemplate.
  by rewrite Hidx, Hexec.
Qed.

(** ** Runs of [main] on the sample inputs *)

(** No entry matches [*.txt]: both patches remain, listed in order. *)
Example main_nothing_claimed :
  Sample.main [Sample.fp_c; Sample.fp_a] (Sample.pageOf ["*.txt"]) proc0
  = (Val tt, {| stderr := []; written := ["fork"; "a.go"; "c.md"] |}).
Proof. vm_compute. reflexivity. Qed.

(** [*.md] matches [c.md], which has a patch: it is rendered and only
    [a.go] remains. *)
Example main_one_claimed :
  Sample.main [Sample.fp_c; Sample.fp_a] (Sample.pageOf ["*.md"]) proc0
  = (Val tt, {| stderr := []; written := ["fork"; "master..HEAD"; "a.go"] |}).
Proof. vm_compute. reflexivity. Qed.

(** Claiming [c.md] twice is as claiming it once. *)
Example main_claimed_twice :
  Sample.main [Sample.fp_c; Sample.fp_a] (Sample.pageOf ["*.md"; "c.*"]) proc0
  = (Val tt, {| stderr := [];
                written := ["fork"; "master..HEAD"; "master..HEAD"; "a.go"] |}).
Proof. vm_compute. reflexivity. Qed.

(** [*.go] matches [a.go] and the unchanged [b.go]: the run ends at
    [b.go] with status 1, the text written so far left in the file. *)
Example main_miss_exits :
  Sample.main [Sample.fp_c; Sample.fp_a] (Sample.pageOf ["*.go"]) proc0
  = (Exit 1,
     {| stderr := [Fprintf "failed to build page" [];
                   Fprintf (String "010" "error: %v")
                     [AnyError "failed to find file patch %s" [AnyString "b.go"]]];
        written := ["fork"; "master..HEAD"] |}).
Proof. vm_compute. reflexivity. Qed.

(** A malformed pattern ends the run at the first entry. *)
Example main_bad_pattern_exits :
  Sample.main [Sample.fp_c; Sample.fp_a] (Sample.pageOf ["*.md"; "["]) proc0
  = (Exit 1,
     {| stderr := [Fprintf "failed to build page" [];
                   Fprintf (String "010" "error: %v")
                     [AnyError "failed to glob match entry %d (%q) against pattern %q"
                        [AnyInt 0; AnyString "a.go"; AnyString "["]]];
        written := ["fork"; "master..HEAD"] |}).
Proof. vm_compute. reflexivity. Qed.

(** A patch with no file on either side makes the index loop panic. *)
Example main_nil_files_panics :
  Sample.main
    [Sample.fp_a;
     {| diff.IsBinary := false; diff.Files := (None, None); diff.Chunks := [] |}]
    (Sample.pageOf []) proc0
  = (Panic, proc0).
Proof. vm_compute. reflexivity. Qed.

(** The encoder failing on a patch leaves [remaining] as it was. *)
Example renderPatch_encoder_fails :
  renderPatch Sample.index_bin "master" "HEAD" Sample.Encode Sample.Render
    "img.png" (dom Sample.index_bin)
  = (Err (Errorf "" []), dom Sample.index_bin).
Proof. vm_compute. reflexivity. Qed.

(** ** The theorems at the sample inputs *)

Local Abbreviation sampleRender :=
  (renderPatch Sample.index "master" "HEAD" Sample.Encode Sample.Render).
Local Abbreviation sampleExecute :=
  (Execute Sample.index Sample.entries "master" "HEAD" Sample.Encode
     Sample.Render Sample.Render filepath.Match).
Local Abbreviation sampleRendered :=
  (rendered Sample.index Sample.entries "master" "HEAD" Sample.Encode
     Sample.Render Sample.Render filepath.Match).

Lemma coverage_conservation_witness :
  "c.md" ∈ remaining (snd (sampleExecute
     (TExpandGlob "*.go" (fun _ => TRenderPatch "a.go" (fun _ => TEnd)))
     {| remaining := seedRemaining (rangeKeys (dom Sample.index)); output := [] |}))
  \/ "c.md" ∈ sampleRendered
     (TExpandGlob "*.go" (fun _ => TRenderPatch "a.go" (fun _ => TEnd)))
     {| remaining := seedRemaining (rangeKeys (dom Sample.index)); output := [] |}.
Proof.
  apply (coverage_conservation Sample.index Sample.entries "master" "HEAD"
           Sample.Encode Sample.Render Sample.Render filepath.Match
           (TExpandGlob "*.go" (fun _ => TRenderPatch "a.go" (fun _ => TEnd))) []).
  apply elem_of_dom. eexists. vm_compute. reflexivity.
Defined.



Lemma remaining_only_shrinks_witness :
  ("a.go" ∉ snd (sampleRender "a.go" (dom Sample.index))) /\
  seedRemaining ["a.go"; "c.md"] = dom Sample.index.
Proof.
  pose proof (remaining_only_shrinks Sample.index Sample.entries "master" "HEAD"
                Sample.Encode Sample.Render Sample.Render filepath.Match)
    as (Hseed & _ & _ & Hclaimed).
  split.
  - eapply (Hclaimed "a.go" (dom Sample.index)). vm_compute. reflexivity.
  - apply Hseed. vm_compute. apply perm_swap.
Defined.

Lemma renderPatch_twice_as_once_witness :
  snd (sampleRender "b.go" (dom Sample.index)) = dom Sample.index /\
  sampleRender "a.go" (dom Sample.index ∖ {["a.go"]})
    = (Ok "master..HEAD", dom Sample.index ∖ {["a.go"]} ∖ {["a.go"]}) /\
  sampleRender "b.go" (dom Sample.index) = (Err (notFound "b.go"), dom Sample.index).
Proof.
  pose proof (renderPatch_twice_as_once Sample.index "master" "HEAD"
                Sample.Encode Sample.Render) as Hthm.
  split; [|split].
  - apply (Hthm "b.go" (dom Sample.index)). by vm_compute.
  - destruct (Hthm "a.go" (dom Sample.index ∖ {["a.go"]})) as (_ & _ & Hagain & _).
    apply (Hagain (dom Sample.index) "master..HEAD" (dom Sample.index ∖ {["a.go"]})).
    vm_compute. reflexivity.
  - apply (Hthm "b.go" (dom Sample.index)). by vm_compute.
Defined.

(** C7 fails as stated: a call of [renderPatch] on a path that never was
    a key of the index is an error. *)
Lemma renderPatch_unknown_path_is_error :
  ("never.go" ∉ dom Sample.index) /\
  ("never.go" ∉ dom Sample.index ∖ {["a.go"]}) /\
  sampleRender "never.go" (dom Sample.index ∖ {["a.go"]})
    = (Err (Errorf "failed to find file patch %s" [AnyString "never.go"]),
       dom Sample.index ∖ {["a.go"]}).
Proof.
  split; [by vm_compute|]. split; [by vm_compute|].
  by apply renderPatch_miss.
Qed.

Lemma expandGlob_flat_in_order_witness :
  expandGlob Sample.entries filepath.Match "*.go" = Ok ["a.go"; "b.go"] /\
  expandGlob Sample.entries filepath.Match "*.txt" = Ok [].
Proof.
  split.
  - apply (expandGlob_flat_in_order Sample.index Sample.entries "master" "HEAD"
             Sample.Encode Sample.Render Sample.Render filepath.Match "*.go").
    repeat constructor.
  - apply (expandGlob_flat_in_order Sample.index Sample.entries "master" "HEAD"
             Sample.Encode Sample.Render Sample.Render filepath.Match "*.txt").
    repeat constructor.
Defined.


(** The malformed [b*[] passes [a.go] and is an error at [b.go]. *)
Example expandGlob_error_at_second_entry :
  expandGlob Sample.entries filepath.Match "b*["
  = Err (globError 1 "b.go" "b*[").
Proof. reflexivity. Qed.


(** * Further properties of the program *)

(** ** The patch index without collisions *)

Lemma indexPatches_dom fps : forall m p idx p',
  indexPatches fps m p = (Val idx, p') ->
  dom idx = list_to_set (omap patchKey fps) ∪ dom m.
Proof.
  induction fps as [|fp fps IH]; intros m p idx p' Hrun; simpl in Hrun.
  - unfold ret in Hrun. simplify_eq. set_solver.
  - destruct (patchKey fp) as [k|] eqn:Hk; [|by unfold panic in Hrun].
    rewrite (IH _ _ _ _ Hrun). csimpl. rewrite Hk. csimpl.
    rewrite dom_insert_L. set_solver.
Qed.

Lemma omap_patchKey_Some fps :
  Forall (fun fp => is_Some (patchKey fp)) fps ->
  patchKey <$> fps = Some <$> omap patchKey fps.
Proof.
  induction 1 as [|fp fps [k Hk] _ IH]; [done|].
  csimpl. rewrite Hk. csimpl. by rewrite IH.
Qed.

Lemma patchesAt_nil k fps :
  (forall fp, fp ∈ fps -> patchKey fp <> Some k) -> patchesAt k fps = [].
Proof.
  intros Hnone. destruct (patchesAt k fps) as [|fp l] eqn:Hl; [done|].
  assert (Hfp : fp ∈ patchesAt k fps) by (rewrite Hl; left).
  apply list_elem_of_filter in Hfp as [Hk Hin]. by destruct (Hnone fp Hin).
Qed.

(** With pairwise different keys, at most one patch sits at a key. *)
Lemma patchesAt_NoDup k fps :
  NoDup (patchKey <$> fps) ->
  patchesAt k fps = [] \/ exists fp, patchesAt k fps = [fp].
Proof.
  induction fps as [|fp fps IH]; [by left|].
  rewrite fmap_cons. intros [Hnot Hnodup]%NoDup_cons.
  destruct (decide (patchKey fp = Some k)) as [Hk|Hk].
  - right. exists fp. rewrite patchesAt_cons_eq by done. f_equal.
    apply patchesAt_nil. intros fp' Hin Hk'. apply Hnot. rewrite Hk, <- Hk'.
    by apply list_elem_of_fmap_2.
  - rewrite patchesAt_cons_ne by done. by apply IH.
Qed.

Lemma patchesAt_elem k fp fps :
  fp ∈ fps -> patchKey fp = Some k -> fp ∈ patchesAt k fps.
Proof. intros Hin Hk. by apply list_elem_of_filter. Qed.

(** X1. When the patches of the diff have pairwise different paths, the
    index gives back every patch under its own path, and it has as many
    entries as the diff has patches. *)
Theorem index_lookup_without_collision (fps : list diff.FilePatch) (p : Proc) :
  Forall (fun fp => is_Some (patchKey fp)) fps ->
  NoDup (patchKey <$> fps) ->
  exists idx,
    indexPatches fps ∅ p = (Val idx, p) /\
    (forall fp k, fp ∈ fps -> patchKey fp = Some k -> idx !! k = Some fp) /\
    size idx = length fps.
Proof.
  intros Hall Hnodup.
  destruct (indexPatches_total fps ∅ p Hall) as [idx Hrun].
  exists idx. split; [done|].
  destruct (indexPatches_Val _ _ _ _ _ Hrun) as [_ Hlook]. split.
  - intros fp k Hin Hk. rewrite Hlook.
    pose proof (patchesAt_elem k fp fps Hin Hk) as Hfp.
    destruct (patchesAt_NoDup k fps Hnodup) as [Hnil|[fp' Hone]].
    + rewrite Hnil in Hfp. by apply not_elem_of_nil in Hfp.
    + rewrite Hone in Hfp |- *. apply list_elem_of_singleton in Hfp. by subst.
  - rewrite <- size_dom, (indexPatches_dom _ _ _ _ _ Hrun), dom_empty_L.
    rewrite (right_id_L ∅ (∪)).
    rewrite omap_patchKey_Some in Hnodup by done.
    apply NoDup_fmap_1 in Hnodup.
    rewrite size_list_to_set by done.
    rewrite <- (length_fmap Some), <- omap_patchKey_Some by done.
    by rewrite length_fmap.
Qed.

Lemma index_lookup_without_collision_witness :
  exists idx,
    indexPatches [Sample.fp_a; Sample.fp_c; Sample.fp_old] ∅ proc0 = (Val idx, proc0) /\
    idx !! "old.txt" = Some Sample.fp_old /\
    size idx = 3.
Proof.
  destruct (index_lookup_without_collision
              [Sample.fp_a; Sample.fp_c; Sample.fp_old] proc0)
    as (idx & Hrun & Hlook & Hsize).
  - repeat constructor; by eexists.
  - apply (bool_decide_unpack _). vm_compute. exact I.
  - exists idx. split; [exact Hrun|]. split; [|exact Hsize].
    apply (Hlook Sample.fp_old); [|reflexivity]. repeat constructor.
Defined.

(** X2. When the patches of the diff have pairwise different paths, the
    index does not depend on the order in which the diff lists them. *)
Theorem index_independent_of_diff_order (fps1 fps2 : list diff.FilePatch) (p : Proc) :
  fps1 ≡ₚ fps2 ->
  Forall (fun fp => is_Some (patchKey fp)) fps1 ->
  NoDup (patchKey <$> fps1) ->
  exists idx,
    indexPatches fps1 ∅ p = (Val idx, p) /\
    indexPatches fps2 ∅ p = (Val idx, p).
Proof.
  intros Hperm Hall Hnodup.
  assert (Hall2 : Forall (fun fp => is_Some (patchKey fp)) fps2)
    by (by rewrite <- Hperm).
  destruct (indexPatches_total fps1 ∅ p Hall) as [idx1 Hrun1].
  destruct (indexPatches_total fps2 ∅ p Hall2) as [idx2 Hrun2].
  exists idx1. split; [done|]. rewrite Hrun2. do 2 f_equal.
  destruct (indexPatches_Val _ _ _ _ _ Hrun1) as [_ Hlook1].
  destruct (indexPatches_Val _ _ _ _ _ Hrun2) as [_ Hlook2].
  apply map_eq. intros k. rewrite Hlook1, Hlook2.
  assert (Hk : patchesAt k fps1 ≡ₚ patchesAt k fps2)
    by (unfold patchesAt; by rewrite Hperm).
  destruct (patchesAt_NoDup k fps1 Hnodup) as [Hnil|[fp Hone]].
  - rewrite Hnil in Hk |- *. apply Permutation_nil_l in Hk. by rewrite <- Hk.
  - rewrite Hone in Hk |- *. apply Permutation_singleton_l in Hk.
    by rewrite <- Hk.
Qed.

Lemma index_independent_of_diff_order_witness :
  exists idx,
    indexPatches [Sample.fp_a; Sample.fp_c] ∅ proc0 = (Val idx, proc0) /\
    indexPatches [Sample.fp_c; Sample.fp_a] ∅ proc0 = (Val idx, proc0).
Proof.
  apply (index_independent_of_diff_order
           [Sample.fp_a; Sample.fp_c] [Sample.fp_c; Sample.fp_a] proc0).
  - apply perm_swap.
  - repeat constructor; by eexists.
  - apply (bool_decide_unpack _). vm_compute. exact I.
Defined.

(** ** More on the template functions *)

Lemma difference_comm (r c1 c2 : gset string) : r ∖ c1 ∖ c2 = r ∖ c2 ∖ c1.
Proof. set_solver. Qed.

Lemma size_difference_add (X Y : gset string) :
  Y ⊆ X -> size (X ∖ Y) + size Y = size X.
Proof.
  intros Hsub. rewrite (size_difference X Y Hsub).
  apply subseteq_size in Hsub. lia.
Qed.

Lemma remainingPatches_length (remaining : gset string) :
  length (remainingPatches remaining) = size remaining.
Proof. by rewrite remainingPatches_perm. Qed.

Section FuncsMore.

Variable patchByName : gmap string diff.FilePatch.
Variable targetTree_Entries : list TreeEntry.
Variables baseRefStr targetRefStr : string.
Variable Encode : diff.UnifiedEncoder -> list diff.FilePatch -> string -> result string.
Variable t2html_Render : string -> string.
Variable markdown_ToHTML : string -> string.
Variable filepath_Match : string -> string -> bool * option error.

Local Abbreviation renderPatch' :=
  (renderPatch patchByName baseRefStr targetRefStr Encode t2html_Render).
Local Abbreviation Execute' :=
  (Execute patchByName targetTree_Entries baseRefStr targetRefStr Encode
     t2html_Render markdown_ToHTML filepath_Match).
Local Abbreviation rendered' :=
  (rendered patchByName targetTree_Entries baseRefStr targetRefStr Encode
     t2html_Render markdown_ToHTML filepath_Match).

(** What a call on [path] removes is the same whatever [remaining] is:
    the path, or nothing. *)
Lemma renderPatch_removes path :
  exists c : gset string, forall r, snd (renderPatch' path r) = r ∖ c.
Proof.
  destruct (renderPatch_cases patchByName baseRefStr targetRefStr Encode
              t2html_Render path ∅)
    as [[Hp _]|[(p & e & Hp & He & _)|(p & out & Hp & He & _)]].
  - exists ∅. intros r. rewrite (renderPatch_miss _ _ _ _ _ _ r Hp). simpl.
    by rewrite difference_empty_L.
  - exists ∅. intros r.
    rewrite (renderPatch_encode_error _ _ _ _ _ _ r _ _ Hp He). simpl.
    by rewrite difference_empty_L.
  - exists {[path]}. intros r.
    by rewrite (renderPatch_ok _ _ _ _ _ _ r _ _ Hp He).
Qed.

(** X3. Two calls of [renderPatch] commute: in either order they leave
    the same [remaining], and what a call returns does not depend on
    the call made before it. *)
Theorem renderPatch_commute (path1 path2 : string) (remaining : gset string) :
  let call := renderPatch patchByName baseRefStr targetRefStr Encode t2html_Render in
  snd (call path2 (snd (call path1 remaining)))
    = snd (call path1 (snd (call path2 remaining))) /\
  fst (call path2 (snd (call path1 remaining))) = fst (call path2 remaining).
Proof.
  intros call. unfold call.
  split; [|apply renderPatch_result].
  destruct (renderPatch_removes path1) as [c1 H1].
  destruct (renderPatch_removes path2) as [c2 H2].
  rewrite !H1, !H2. apply difference_comm.
Qed.

Lemma Execute_output_prefix (t : Tmpl) (st : Exec) :
  output st `prefix_of` output (snd (Execute' t st)).
Proof.
  revert st.
  induction t as [|s k IH|md k IH|path k IH|k IH|def level k IH|pat k IH];
    intros st; simpl; try done.
  - etrans; [|apply IH]. simpl. by apply prefix_app_r.
  - destruct (renderPatch' path (remaining st)) as [[html|e] r]; simpl; [|done].
    apply (IH html {| remaining := r; output := output st |}).
  - destruct (expandGlob targetTree_Entries filepath_Match pat); simpl; done.
Qed.

(** X4. Executing a template only appends to the text written: what was
    written before the execution is a prefix of what is written after
    it, and when a call ends the execution with an error, the text
    written up to that call stays. *)
Theorem Execute_appends_only (t : Tmpl) (st : Exec) :
  output st `prefix_of` output (snd (Execute' t st)) /\
  (forall path k,
     patchByName !! path = None ->
     output (snd (Execute' (TRenderPatch path k) st)) = output st) /\
  (forall pat k e,
     expandGlob targetTree_Entries filepath_Match pat = Err e ->
     output (snd (Execute' (TExpandGlob pat k) st)) = output st).
Proof.
  split; [apply Execute_output_prefix|]. split.
  - intros path k Hmiss. simpl.
    by rewrite (renderPatch_miss _ _ _ _ _ _ (remaining st) Hmiss).
  - intros pat k e Herr. simpl. by rewrite Herr.
Qed.

(** X5. The counts add up: after any execution from the seeded state,
    the number of paths [remainingPatches] lists plus the number of
    different paths rendered is the number of patches in the index. *)
Theorem coverage_counts_add_up (t : Tmpl) (out : list string) :
  let st0 := {| remaining := seedRemaining (rangeKeys (dom patchByName));
                output := out |} in
  length (remainingPatches (remaining (snd (Execute' t st0))))
    + size (list_to_set (rendered' t st0) : gset string)
  = size patchByName.
Proof.
  intros st0. rewrite remainingPatches_length, Execute_remaining.
  unfold st0 at 1. simpl. rewrite (seedRemaining_dom patchByName) by done.
  rewrite <- (size_dom patchByName). apply size_difference_add.
  intros k Hk%elem_of_list_to_set. by eapply rendered_in_index.
Qed.

End FuncsMore.

(** ** More on [expandGlob] *)

Section GlobMore.

Variable filepath_Match : string -> string -> bool * option error.

Local Abbreviation noError pat :=
  (fun entry : TreeEntry => snd (filepath_Match pat (Name entry)) = None).
Local Abbreviation expandGlob' entries := (expandGlob entries filepath_Match).

(** X6. [expandGlob] stops at the first entry on which the match reports
    an error: the error carries the index and the name of that entry and
    the pattern, and the names matched before it are not returned. *)
Theorem expandGlob_first_error (pat : string) (pre post : list TreeEntry)
    (entry : TreeEntry) :
  Forall (noError pat) pre ->
  snd (filepath_Match pat (Name entry)) <> None ->
  expandGlob' (pre ++ entry :: post) pat
    = Err (globError (Z.of_nat (length pre)) (Name entry) pat).
Proof.
  intros Hpre Herr. unfold expandGlob.
  by rewrite (expandGlob_from_err filepath_Match pat pre entry post 0 []).
Qed.

Lemma expandGlob_from_names pat entries1 : forall entries2 i out,
  Name <$> entries1 = Name <$> entries2 ->
  expandGlob_from filepath_Match pat entries1 i out
    = expandGlob_from filepath_Match pat entries2 i out.
Proof.
  induction entries1 as [|e1 entries1 IH]; intros [|e2 entries2] i out Hnames;
    try done.
  rewrite !fmap_cons in Hnames. injection Hnames as Hname Hnames.
  simpl. rewrite Hname.
  destruct (filepath_Match pat (Name e2)) as [[] []]; auto.
Qed.

(** X7. [expandGlob] sees of the tree entries their names only: two
    listings with the same names, whatever the modes and hashes, so
    whether an entry is a file or a directory, expand alike. *)
Theorem expandGlob_names_only (pat : string) (entries1 entries2 : list TreeEntry) :
  Name <$> entries1 = Name <$> entries2 ->
  expandGlob' entries1 pat = expandGlob' entries2 pat.
Proof. intros Hnames. unfold expandGlob. by apply expandGlob_from_names. Qed.

(** X8. Expansion over a listing in two parts: an error in the first
    part is the error of the whole; two results are concatenated; an
    error in the second part is the error of the whole with the entry
    index counted from the start of the listing. *)
Theorem expandGlob_app (pat : string) (entries1 entries2 : list TreeEntry) :
  (forall e, expandGlob' entries1 pat = Err e ->
     expandGlob' (entries1 ++ entries2) pat = Err e) /\
  (forall names1 names2,
     expandGlob' entries1 pat = Ok names1 ->
     expandGlob' entries2 pat = Ok names2 ->
     expandGlob' (entries1 ++ entries2) pat = Ok (names1 ++ names2)) /\
  (forall names1 i name,
     expandGlob' entries1 pat = Ok names1 ->
     expandGlob' entries2 pat = Err (globError i name pat) ->
     expandGlob' (entries1 ++ entries2) pat
       = Err (globError (Z.of_nat (length entries1) + i) name pat)).
Proof.
  unfold expandGlob.
  destruct (entries_first_error filepath_Match pat entries1)
    as [Hall1|(pre1 & e1 & post1 & -> & Hpre1 & Herr1)].
  - rewrite (expandGlob_from_ok filepath_Match pat entries1 0 [] Hall1).
    destruct (entries_first_error filepath_Match pat entries2)
      as [Hall2|(pre2 & e2 & post2 & -> & Hpre2 & Herr2)].
    + rewrite (expandGlob_from_ok filepath_Match pat entries2 0 [] Hall2).
      rewrite (expandGlob_from_ok filepath_Match pat (entries1 ++ entries2) 0 [])
        by (by apply Forall_app).
      rewrite fmap_app, filter_app.
      split; [done|]. split; [|done]. intros names1 names2 ??. by simplify_eq.
    + rewrite (expandGlob_from_err filepath_Match pat pre2 e2 post2 0 [])
        by done.
      rewrite app_assoc.
      rewrite (expandGlob_from_err filepath_Match pat (entries1 ++ pre2) e2 post2 0 [])
        by (try done; by apply Forall_app).
      split; [done|]. split; [done|].
      intros names1 i name _ Heq. injection Heq as <- <-.
      rewrite length_app. do 2 f_equal. lia.
  - rewrite <- app_assoc, <- app_comm_cons.
    rewrite !(expandGlob_from_err filepath_Match pat pre1 e1 _ 0 []) by done.
    split; [done|]. split; done.
Qed.

End GlobMore.

Lemma expandGlob_first_error_witness :
  expandGlob Sample.entries filepath.Match "["
    = Err (globError 0 "a.go" "[").
Proof.
  apply (expandGlob_first_error filepath.Match "[" []
           [Sample.entry "b.go"; Sample.entry "c.md"] (Sample.entry "a.go")).
  - constructor.
  - vm_compute. discriminate.
Defined.

Lemma expandGlob_names_only_witness :
  expandGlob [{| Name := "a.go"; EntryMode := 16384; EntryHash := "ffff" |}]
    filepath.Match "*.go"
  = expandGlob [Sample.entry "a.go"] filepath.Match "*.go".
Proof.
  apply (expandGlob_names_only filepath.Match "*.go"). reflexivity.
Defined.

Lemma expandGlob_app_witness :
  expandGlob ([Sample.entry "a.go"; Sample.entry "b.go"] ++ [Sample.entry "c.md"])
    filepath.Match "*"
  = Ok (["a.go"; "b.go"] ++ ["c.md"]).
Proof.
  apply (expandGlob_app filepath.Match "*"
           [Sample.entry "a.go"; Sample.entry "b.go"] [Sample.entry "c.md"]).
  - vm_compute. reflexivity.
  - vm_compute. reflexivity.
Defined.

(** ** The whole of [main] *)

Lemma must_Some e msg margs p :
  must (Some e) msg margs p = (Exit 1, exitProc p msg margs e).
Proof.
  unfold must, bind, eprintf, os_Exit, exitProc. simpl. by rewrite <- app_assoc.
Qed.

Lemma bind_mustOk {A B} (r : result A) msg margs (k : A -> M B) p :
  (x <- mustOk r msg margs ;; k x) p =
  match r with
  | Ok v => k v p
  | Err e => (Exit 1, exitProc p msg margs e)
  end.
Proof.
  destruct r as [v|e]; [done|].
  unfold mustOk, bind. simpl err_of. by rewrite must_Some.
Qed.

Lemma bind_mustRef {B} (r : result Reference) msg (k : Reference -> M B) p :
  (x <- mustRef r msg ;; k x) p =
  match r with
  | Ok ref => k ref p
  | Err e => (Panic, p)
  end.
Proof. by destruct r. Qed.

Lemma bind_indexPatches {B} fps (k : gmap string diff.FilePatch -> M B) p :
  (idx <- indexPatches fps ∅ ;; k idx) p =
  match indexPatches fps ∅ p with
  | (Val idx, _) => k idx p
  | (Exit code, _) => (Exit code, p)
  | (Panic, _) => (Panic, p)
  end.
Proof.
  unfold bind. destruct (patchKeys_cases fps) as [Hall|Hnone].
  - destruct (indexPatches_total fps ∅ p Hall) as [idx Hrun]. by rewrite Hrun.
  - by rewrite (indexPatches_Panic _ _ _ Hnone).
Qed.

(** Evaluates [prepare] along the results of the steps known so far. *)
Ltac prepare_steps :=
  unfold prepare;
  repeat match goal with
         | H : _ = Ok _ |- _ => rewrite H; clear H; simpl
         | H : _ = Err _ |- _ => rewrite H; clear H; simpl
         end;
  reflexivity.

Section ProgramFacts.

Variables Repository Commit : Type.
Variable os_Open : string -> result string.
Variable yaml_Decode : string -> result Page.
Variable git_PlainOpen : string -> result Repository.
Variable repo_Reference : Repository -> string -> result Reference.
Variable repo_CommitObject : Repository -> string -> result Commit.
Variable commit_Tree : Commit -> result Tree.
Variable tree_PatchContext : Tree -> Tree -> result (list diff.FilePatch).
Variable template_ParseFS : result (Page -> Tmpl).
Variable os_OpenFile : string -> result unit.
Variable Encode : diff.UnifiedEncoder -> list diff.FilePatch -> string -> result string.
Variable t2html_Render : string -> string.
Variable markdown_ToHTML : string -> string.
Variable filepath_Match : string -> string -> bool * option error.

Local Abbreviation readPageYaml' := (readPageYaml os_Open yaml_Decode).
Local Abbreviation main' :=
  (main Repository Commit os_Open yaml_Decode git_PlainOpen repo_Reference
     repo_CommitObject commit_Tree tree_PatchContext template_ParseFS
     os_OpenFile Encode t2html_Render markdown_ToHTML filepath_Match).
Local Abbreviation prepare' :=
  (prepare Repository Commit os_Open yaml_Decode git_PlainOpen repo_Reference
     repo_CommitObject commit_Tree tree_PatchContext template_ParseFS
     os_OpenFile).
Local Abbreviation main_tail' :=
  (main_tail Encode t2html_Render markdown_ToHTML filepath_Match).

(** X9. When the page definition cannot be opened, or cannot be decoded,
    [main] exits with status 1 without opening the repository: it
    prints "failed to read page definition" with the path, and the error
    of [readPageYaml], which wraps the cause. *)
Theorem main_page_definition_first (flags : Flags) (p : Proc) :
  (forall cause,
     os_Open (flag_fork flags) = Err cause ->
     main' flags p
     = (Exit 1,
        exitProc p "failed to read page definition %q"
          [AnyString (flag_fork flags)]
          (Errorf "failed to read page YAML file: %w" [any_of_error cause]))) /\
  (forall f cause,
     os_Open (flag_fork flags) = Ok f ->
     yaml_Decode f = Err cause ->
     main' flags p
     = (Exit 1,
        exitProc p "failed to read page definition %q"
          [AnyString (flag_fork flags)]
          (Errorf "failed to decode page YAML file: %w" [any_of_error cause]))).
Proof.
  split.
  - intros cause Hopen. unfold main. rewrite bind_mustOk.
    unfold readPageYaml. by rewrite Hopen.
  - intros f cause Hopen Hdec. unfold main. rewrite bind_mustOk.
    unfold readPageYaml. by rewrite Hopen, Hdec.
Qed.

(** X10. When the base reference, or the target reference, cannot be
    resolved, [main] does not reach the call of [must] that would report
    it: evaluating the operand [*baseRef] (or [*targetRef]) on the nil
    reference panics, and nothing is printed or written. *)
Theorem main_missing_ref_panics (flags : Flags) (p : Proc)
    (pageDefinition : Page) (repo : Repository) :
  readPageYaml' (flag_fork flags) = Ok pageDefinition ->
  git_PlainOpen (flag_repo flags) = Ok repo ->
  ok (repo_Reference repo (flag_base flags)) = None \/
  ok (repo_Reference repo (flag_target flags)) = None ->
  main' flags p = (Panic, p).
Proof.
  intros Hpage Hrepo Hrefs. unfold main.
  rewrite bind_mustOk, Hpage, bind_mustOk, Hrepo, bind_mustRef.
  destruct (repo_Reference repo (flag_base flags)) as [baseRef|e]; [|done].
  rewrite bind_mustRef.
  destruct (repo_Reference repo (flag_target flags)) as [targetRef|e]; [|done].
  by destruct Hrefs.
Qed.

Lemma main_tail_outcomes templ base target entries fps data p :
  match main_tail' templ base target entries fps data p with
  | (Val _, p') => stderr p' = stderr p /\ written p `prefix_of` written p'
  | (Exit code, p') =>
      code = 1%Z /\ written p `prefix_of` written p' /\
      exists e, stderr p' = stderr (exitProc p "failed to build page" [] e)
  | (Panic, p') => p' = p
  end.
Proof.
  unfold main_tail. rewrite bind_indexPatches.
  destruct (indexPatches fps ∅ p) as [[idx|code|] p0] eqn:Hidx; [| |done].
  - unfold bind, ExecuteTemplate.
    pose proof (Execute_output_prefix idx entries base target Encode
                  t2html_Render markdown_ToHTML filepath_Match (templ data)
                  {| remaining := seedRemaining (rangeKeys (dom idx));
                     output := written p |}) as Hpre.
    destruct (Execute idx entries base target Encode t2html_Render
                markdown_ToHTML filepath_Match (templ data) _) as [[e|] st].
    + rewrite must_Some. simpl. split; [done|]. split; [done|]. by exists e.
    + simpl. done.
  - destruct (patchKeys_cases fps) as [Hall|Hnone].
    + destruct (indexPatches_total fps ∅ p Hall) as [idx Hrun]. congruence.
    + rewrite (indexPatches_Panic _ _ _ Hnone) in Hidx. congruence.
Qed.

(** [main] either has all its steps before the execution succeed, or
    panics before printing, or exits on the first failed step. *)
Lemma main_cases (flags : Flags) (p : Proc) :
  (exists prep,
     prepare' flags = Some prep /\
     main' flags p
     = main_tail' (prep_templ prep) (flag_base flags) (flag_target flags)
         (Entries (prep_targetTree prep)) (prep_patches prep) (prep_page prep) p) \/
  (prepare' flags = None /\
   (main' flags p = (Panic, p) \/
    exists msg margs e,
      msg ∈ mainMessages /\ main' flags p = (Exit 1, exitProc p msg margs e))).
Proof.
  assert (Hexit : forall msg margs e,
            msg ∈ mainMessages ->
            (Exit 1, exitProc p msg margs e) = (@Panic unit, p) \/
            exists msg' margs' e',
              msg' ∈ mainMessages /\
              (@Exit unit 1, exitProc p msg margs e)
              = (Exit 1, exitProc p msg' margs' e')).
  { intros msg margs e Hin. right. by exists msg, margs, e. }
  unfold main. rewrite bind_mustOk.
  destruct (readPageYaml' (flag_fork flags)) as [pageDefinition|] eqn:E1;
    [|right; split; [prepare_steps|apply Hexit; by repeat constructor]].
  rewrite bind_mustOk.
  destruct (git_PlainOpen (flag_repo flags)) as [repo|] eqn:E2;
    [|right; split; [prepare_steps|apply Hexit; by repeat constructor]].
  rewrite bind_mustRef.
  destruct (repo_Reference repo (flag_base flags)) as [baseRef|] eqn:E3;
    [|right; split; [prepare_steps|by left]].
  rewrite bind_mustRef.
  destruct (repo_Reference repo (flag_target flags)) as [targetRef|] eqn:E4;
    [|right; split; [prepare_steps|by left]].
  rewrite bind_mustOk.
  destruct (repo_CommitObject repo (RefHash baseRef)) as [baseCommit|] eqn:E5;
    [|right; split; [prepare_steps|apply Hexit; by repeat constructor]].
  rewrite bind_mustOk.
  destruct (commit_Tree baseCommit) as [baseTree|] eqn:E6;
    [|right; split; [prepare_steps|apply Hexit; by repeat constructor]].
  rewrite bind_mustOk.
  destruct (repo_CommitObject repo (RefHash targetRef)) as [targetCommit|] eqn:E7;
    [|right; split; [prepare_steps|apply Hexit; by repeat constructor]].
  rewrite bind_mustOk.
  destruct (commit_Tree targetCommit) as [targetTree|] eqn:E8;
    [|right; split; [prepare_steps|apply Hexit; by repeat constructor]].
  rewrite bind_mustOk.
  destruct (tree_PatchContext targetTree baseTree) as [forkPatch|] eqn:E9;
    [|right; split; [prepare_steps|apply Hexit; by repeat constructor]].
  rewrite bind_indexPatches.
  destruct (indexPatches forkPatch ∅ p) as [[idx|code|] p0] eqn:Hidx.
  - rewrite bind_mustOk.
    destruct template_ParseFS as [templ|] eqn:E10;
      [|right; split; [prepare_steps|apply Hexit; by repeat constructor]].
    rewrite bind_mustOk.
    destruct (os_OpenFile (flag_out flags)) as [[]|] eqn:E11;
      [|right; split; [prepare_steps|apply Hexit; by repeat constructor]].
    left. eexists. split; [prepare_steps|].
    simpl. unfold main_tail. by rewrite bind_indexPatches, Hidx.
  - exfalso. destruct (patchKeys_cases forkPatch) as [Hall|Hnone].
    + destruct (indexPatches_total forkPatch ∅ p Hall) as [idx Hrun]. congruence.
    + rewrite (indexPatches_Panic _ _ _ Hnone) in Hidx. congruence.
  - destruct template_ParseFS as [templ|] eqn:E10;
      [|right; split; [prepare_steps|by left]].
    destruct (os_OpenFile (flag_out flags)) as [[]|] eqn:E11;
      [|right; split; [prepare_steps|by left]].
    left. eexists. split; [prepare_steps|].
    simpl. unfold main_tail. by rewrite bind_indexPatches, Hidx.
Qed.

(** Once the flags are parsed, [main] ends in one of three ways: it
    returns with nothing printed, every step before the execution having
    succeeded; or it exits with status 1 after printing one of the ten
    messages and the error; or it panics with nothing printed or
    written. *)
Lemma main_outcomes (flags : Flags) (p : Proc) :
  match main' flags p with
  | (Val _, p') =>
      stderr p' = stderr p /\ written p `prefix_of` written p' /\
      is_Some (prepare' flags)
  | (Exit code, p') =>
      code = 1%Z /\ written p `prefix_of` written p' /\
      exists msg margs e,
        msg ∈ mainMessages /\ stderr p' = stderr (exitProc p msg margs e)
  | (Panic, p') => p' = p
  end.
Proof.
  destruct (main_cases flags p)
    as [(prep & Hprep & ->)|[_ [->|(msg & margs & e & Hin & ->)]]].
  - pose proof (main_tail_outcomes (prep_templ prep) (flag_base flags)
                  (flag_target flags) (Entries (prep_targetTree prep))
                  (prep_patches prep) (prep_page prep) p) as Htail.
    destruct (main_tail' _ _ _ _ _ _ p) as [[[]|code|] p']; [| |done].
    + destruct Htail as [? ?]. by rewrite Hprep.
    + destruct Htail as (? & ? & e & ?). split; [done|]. split; [done|].
      exists "failed to build page", [], e. split; [|done]. by repeat constructor.
  - done.
  - split; [done|]. split; [done|]. by exists msg, margs, e.
Qed.

Lemma main_cases_unparsed (flags : Flags) (p : Proc) :
  ok template_ParseFS = None ->
  main' flags p = (Panic, p) \/
  exists msg margs e,
    msg ∈ take 8 mainMessages /\
    main' flags p = (Exit 1, exitProc p msg margs e).
Proof.
  intros Hparse.
  assert (Hexit : forall msg margs e,
            msg ∈ take 8 mainMessages ->
            (Exit 1, exitProc p msg margs e) = (@Panic unit, p) \/
            exists msg' margs' e',
              msg' ∈ take 8 mainMessages /\
              (@Exit unit 1, exitProc p msg margs e)
              = (Exit 1, exitProc p msg' margs' e')).
  { intros msg margs e Hin. right. by exists msg, margs, e. }
  unfold main. rewrite bind_mustOk.
  destruct (readPageYaml' (flag_fork flags)) as [pageDefinition|];
    [|apply Hexit; by repeat constructor].
  rewrite bind_mustOk.
  destruct (git_PlainOpen (flag_repo flags)) as [repo|];
    [|apply Hexit; by repeat constructor].
  rewrite bind_mustRef.
  destruct (repo_Reference repo (flag_base flags)) as [baseRef|]; [|by left].
  rewrite bind_mustRef.
  destruct (repo_Reference repo (flag_target flags)) as [targetRef|]; [|by left].
  rewrite bind_mustOk.
  destruct (repo_CommitObject repo (RefHash baseRef)) as [baseCommit|];
    [|apply Hexit; by repeat constructor].
  rewrite bind_mustOk.
  destruct (commit_Tree baseCommit) as [baseTree|];
    [|apply Hexit; by repeat constructor].
  rewrite bind_mustOk.
  destruct (repo_CommitObject repo (RefHash targetRef)) as [targetCommit|];
    [|apply Hexit; by repeat constructor].
  rewrite bind_mustOk.
  destruct (commit_Tree targetCommit) as [targetTree|];
    [|apply Hexit; by repeat constructor].
  rewrite bind_mustOk.
  destruct (tree_PatchContext targetTree baseTree) as [forkPatch|];
    [|apply Hexit; by repeat constructor].
  rewrite bind_indexPatches.
  destruct (indexPatches forkPatch ∅ p) as [[idx|code|] p0] eqn:Hidx.
  - rewrite bind_mustOk.
    destruct template_ParseFS as [templ|]; [done|].
    apply Hexit. by repeat constructor.
  - exfalso. destruct (patchKeys_cases forkPatch) as [Hall|Hnone].
    + destruct (indexPatches_total forkPatch ∅ p Hall) as [idx Hrun]. congruence.
    + rewrite (indexPatches_Panic _ _ _ Hnone) in Hidx. congruence.
  - by left.
Qed.

(** X12. [template.ParseFS(page)] names no pattern; when it returns an
    error, [main], its flags parsed, never returns and never executes
    the template.  It panics with nothing printed or written, or it
    exits with status 1 after printing exactly one of the eight messages
    up to "failed to parse page template" and the error, the output
    left as it was. *)
Theorem main_never_builds_page (flags : Flags) (p : Proc) :
  ok template_ParseFS = None ->
  match main' flags p with
  | (Val _, _) => False
  | (Exit code, p') =>
      code = 1%Z /\ written p' = written p /\
      exists msg margs e,
        msg ∈ take 8 mainMessages /\ stderr p' = stderr (exitProc p msg margs e)
  | (Panic, p') => p' = p
  end.
Proof.
  intros Hparse.
  destruct (main_cases_unparsed flags p Hparse)
    as [->|(msg & margs & e & Hin & ->)]; [done|].
  split; [done|]. split; [done|]. by exists msg, margs, e.
Qed.

(** X13. When a step before the template execution fails, whichever it
    is, [main] writes nothing to the output. *)
Theorem main_writes_only_when_prepared (flags : Flags) (p : Proc) :
  prepare' flags = None ->
  written (snd (main' flags p)) = written p.
Proof.
  intros Hnone.
  destruct (main_cases flags p)
    as [(prep & Hprep & _)|[_ [->|(msg & margs & e & _ & ->)]]];
    [congruence|done|done].
Qed.

End ProgramFacts.

Lemma main_page_definition_first_witness :
  SampleRun.main SampleRun.noPage proc0
  = (Exit 1,
     exitProc proc0 "failed to read page definition %q" [AnyString "missing.yaml"]
       (Errorf "failed to read page YAML file: %w"
          [any_of_error (SampleRun.noSuch "missing.yaml")])).
Proof.
  apply (main_page_definition_first unit string SampleRun.os_Open
           SampleRun.yaml_Decode SampleRun.git_PlainOpen SampleRun.repo_Reference
           SampleRun.repo_CommitObject SampleRun.commit_Tree
           SampleRun.tree_PatchContext (Ok Sample.page) SampleRun.os_OpenFile
           Sample.Encode Sample.Render Sample.Render filepath.Match
           SampleRun.noPage proc0).
  reflexivity.
Defined.

Lemma main_missing_ref_panics_witness :
  SampleRun.main SampleRun.noBase proc0 = (Panic, proc0).
Proof.
  apply (main_missing_ref_panics unit string SampleRun.os_Open
           SampleRun.yaml_Decode SampleRun.git_PlainOpen SampleRun.repo_Reference
           SampleRun.repo_CommitObject SampleRun.commit_Tree
           SampleRun.tree_PatchContext (Ok Sample.page) SampleRun.os_OpenFile
           Sample.Encode Sample.Render Sample.Render filepath.Match
           SampleRun.noBase proc0 (Sample.pageOf ["*.md"]) tt).
  - reflexivity.
  - reflexivity.
  - left. reflexivity.
Defined.

Lemma main_writes_only_when_prepared_witness :
  written (snd (SampleRun.main SampleRun.noPage proc0)) = written proc0.
Proof.
  apply (main_writes_only_when_prepared unit string SampleRun.os_Open
           SampleRun.yaml_Decode SampleRun.git_PlainOpen SampleRun.repo_Reference
           SampleRun.repo_CommitObject SampleRun.commit_Tree
           SampleRun.tree_PatchContext (Ok Sample.page) SampleRun.os_OpenFile
           Sample.Encode Sample.Render Sample.Render filepath.Match
           SampleRun.noPage proc0).
  reflexivity.
Defined.

Example main_default_run :
  SampleRun.main defaultFlags proc0
  = (Val tt, {| stderr := []; written := ["fork"; "master..HEAD"; "a.go"] |}).
Proof. vm_compute. reflexivity. Qed.

(** ** Headings *)

Lemma list_ascii_of_string_app (s1 s2 : string) :
  list_ascii_of_string (s1 +:+ s2)
  = list_ascii_of_string s1 ++ list_ascii_of_string s2.
Proof. induction s1 as [|c s1 IH]; simpl; [done|]. by rewrite IH. Qed.

(** X14. The heading that [Title] writes opens with [<hN>] and closes
    with [</N>], so it never ends with the closing tag [</hN>] of its
    own level, whatever the level and the title of the section. *)
Theorem NestedTitle_closing_tag (nd : NestedForkDefinition) :
  (exists body,
     NestedTitle nd = "<h" +:+ pretty (Level nd) +:+ ">" +:+ body
                        +:+ "</" +:+ pretty (Level nd) +:+ ">") /\
  forall before,
    NestedTitle nd <> before +:+ "</h" +:+ pretty (Level nd) +:+ ">".
Proof.
  split; [by exists (Title (NDef nd))|].
  intros before Heq. unfold NestedTitle in Heq.
  apply (f_equal list_ascii_of_string) in Heq.
  rewrite !list_ascii_of_string_app in Heq.
  rewrite !app_assoc in Heq.
  apply app_inj_2 in Heq as [Heq _]; [|done].
  apply app_inj_2 in Heq as [Heq _]; [|done].
  change (list_ascii_of_string "</") with (["<"%char] ++ ["/"%char]) in Heq.
  change (list_ascii_of_string "</h")
    with (["<"%char; "/"%char] ++ ["h"%char]) in Heq.
  rewrite !app_assoc in Heq.
  by apply app_inj_tail in Heq as [_ ?].
Qed.

(** X15. [NextLevel] adds one to the level as a Go [int] does: below the
    largest [int] the result is the level plus one, at the largest [int]
    it wraps around to the smallest, and it is always an [int]. *)
Theorem NextLevel_wraps (nd : NestedForkDefinition) :
  (- 2 ^ 63 <= Level nd < 2 ^ 63 - 1 -> NextLevel nd = Level nd + 1)%Z /\
  (Level nd = 2 ^ 63 - 1 -> NextLevel nd = - 2 ^ 63)%Z /\
  (- 2 ^ 63 <= NextLevel nd < 2 ^ 63)%Z.
Proof.
  unfold NextLevel, wrapInt. split; [|split].
  - intros Hrange. rewrite Z.mod_small by lia. lia.
  - intros ->. replace (2 ^ 63 - 1 + 1 + 2 ^ 63)%Z with (1 * 2 ^ 64)%Z by lia.
    rewrite Z.mod_mul by lia. lia.
  - pose proof (Z.mod_pos_bound (Level nd + 1 + 2 ^ 63) (2 ^ 64)) as Hmod. lia.
Qed.

Lemma NextLevel_wraps_witness :
  NextLevel {| NDef := Def (Sample.pageOf []); Level := 2 |} = 3%Z /\
  NextLevel {| NDef := Def (Sample.pageOf []); Level := 2 ^ 63 - 1 |}
    = (- 2 ^ 63)%Z.
Proof.
  split.
  - apply (NextLevel_wraps {| NDef := Def (Sample.pageOf []); Level := 2 |}).
    simpl. lia.
  - apply (NextLevel_wraps {| NDef := Def (Sample.pageOf []); Level := 2 ^ 63 - 1 |}).
    reflexivity.
Defined.

Lemma NestedTitle_closing_tag_witness :
  NestedTitle {| NDef := Def (Sample.pageOf []); Level := 2 |}
  <> "<h2>all" +:+ "</h" +:+ pretty 2%Z +:+ ">".
Proof.
  apply (NestedTitle_closing_tag {| NDef := Def (Sample.pageOf []); Level := 2 |}).
Defined.

Example NestedTitle_level_2 :
  NestedTitle {| NDef := Def (Sample.pageOf []); Level := 2 |} = "<h2>all</2>".
Proof. reflexivity. Qed.

Lemma Execute_appends_only_witness :
  output (snd (Execute Sample.index Sample.entries "master" "HEAD" Sample.Encode
                 Sample.Render Sample.Render filepath.Match
                 (TRenderPatch "b.go" (fun html => TText html TEnd))
                 {| remaining := dom Sample.index; output := ["fork"] |}))
  = ["fork"].
Proof.
  apply (Execute_appends_only Sample.index Sample.entries "master" "HEAD"
           Sample.Encode Sample.Render Sample.Render filepath.Match
           TEnd {| remaining := dom Sample.index; output := ["fork"] |}).
  vm_compute. reflexivity.
Defined.

Lemma main_never_builds_page_witness :
  match SampleRun.mainUnparsed defaultFlags proc0 with
  | (Val _, _) => False
  | (Exit code, p') =>
      code = 1%Z /\ written p' = written proc0 /\
      exists msg margs e,
        msg ∈ take 8 mainMessages /\
        stderr p' = stderr (exitProc proc0 msg margs e)
  | (Panic, p') => p' = proc0
  end.
Proof.
  apply (main_never_builds_page unit string SampleRun.os_Open
           SampleRun.yaml_Decode SampleRun.git_PlainOpen SampleRun.repo_Reference
           SampleRun.repo_CommitObject SampleRun.commit_Tree
           SampleRun.tree_PatchContext (Err SampleRun.noFiles)
           SampleRun.os_OpenFile Sample.Encode Sample.Render Sample.Render
           filepath.Match defaultFlags proc0).
  reflexivity.
Defined.

Example main_unparsed_run :
  SampleRun.mainUnparsed defaultFlags proc0
  = (Exit 1, exitProc proc0 "failed to parse page template" [] SampleRun.noFiles).
Proof. vm_compute. reflexivity. Qed.
